(** * ScratchIt: a shallow embedding of the scratch-off engine

    The engine of [src/index.js] (function [ScratchIt]) is a closure over a
    handful of mutable variables, driven by browser callbacks.  It is embedded
    here as a record of those variables and one function per handler, written
    in a small state-and-exception monad; what a handler does to the outside
    world (the callbacks it calls, the listeners it attaches, the pixels it
    reads) is recorded, in order, in a trace.

    JavaScript numbers are modelled by [number]: the real numbers extended with
    [NaN] and the two infinities.  Arithmetic on finite values is exact real
    arithmetic (rounding and overflow of IEEE doubles are not modelled, and the
    two zeros are identified); the special values follow IEEE 754, which is
    what decides the corner cases of the code (a division by zero, a
    comparison with [NaN]).

    The callbacks handed to the constructor are taken to be functions that
    return; the overlay is taken to be readable by [getImageData] (it is not
    tainted by a cross-origin image). *)

From Stdlib Require Import Reals Lra Lia ZArith List Bool String.
Import ListNotations.

Open Scope R_scope.

(** ** Numbers *)

Module JS.

Inductive number : Type :=
| NaN
| NegInfinity
| Fin (r : R)
| PosInfinity.

Definition Rltb (a b : R) : bool := if Rlt_dec a b then true else false.
Definition Rleb (a b : R) : bool := if Rle_dec a b then true else false.
Definition Reqb (a b : R) : bool := if Req_dec_T a b then true else false.

(** Sign of a number that is not [NaN]: [-1], [0] or [1]. *)
Definition sign (a : number) : Z :=
  match a with
  | NaN => 0
  | NegInfinity => -1
  | Fin r => if Rltb r 0 then -1 else if Rltb 0 r then 1 else 0
  | PosInfinity => 1
  end.

Definition infinity (s : Z) : number :=
  if (s <? 0)%Z then NegInfinity else PosInfinity.

Definition neg (a : number) : number :=
  match a with
  | NaN => NaN
  | NegInfinity => PosInfinity
  | Fin r => Fin (- r)
  | PosInfinity => NegInfinity
  end.

Definition add (a b : number) : number :=
  match a, b with
  | NaN, _ | _, NaN => NaN
  | Fin r, Fin q => Fin (r + q)
  | PosInfinity, NegInfinity | NegInfinity, PosInfinity => NaN
  | PosInfinity, _ | _, PosInfinity => PosInfinity
  | NegInfinity, _ | _, NegInfinity => NegInfinity
  end.

Definition sub (a b : number) : number := add a (neg b).

Definition mul (a b : number) : number :=
  match a, b with
  | NaN, _ | _, NaN => NaN
  | Fin r, Fin q => Fin (r * q)
  | _, _ =>
      if (sign a * sign b =? 0)%Z then NaN else infinity (sign a * sign b)
  end.

(** [x / 0] is an infinity of the sign of [x], [0 / 0] is [NaN]. *)
Definition div (a b : number) : number :=
  match a, b with
  | NaN, _ | _, NaN => NaN
  | Fin r, Fin q =>
      if Reqb q 0
      then (if Reqb r 0 then NaN else infinity (sign a))
      else Fin (r / q)
  | Fin _, _ => Fin 0
  | _, Fin q => infinity (sign a * (if Rltb q 0 then -1 else 1))
  | _, _ => NaN
  end.

Definition lt (a b : number) : bool :=
  match a, b with
  | NaN, _ | _, NaN => false
  | Fin r, Fin q => Rltb r q
  | NegInfinity, NegInfinity | PosInfinity, _ => false
  | NegInfinity, _ => true
  | Fin _, PosInfinity => true
  | Fin _, NegInfinity => false
  end.

Definition le (a b : number) : bool :=
  match a, b with
  | NaN, _ | _, NaN => false
  | Fin r, Fin q => Rleb r q
  | NegInfinity, _ | _, PosInfinity => true
  | _, _ => false
  end.

Definition gt (a b : number) : bool := lt b a.
Definition ge (a b : number) : bool := le b a.

(** Integer parts of a real, after [Int_part] of the standard library. *)
Definition floorZ (r : R) : Z := Int_part r.
Definition ceilZ (r : R) : Z := (- Int_part (- r))%Z.
(** [Math.round] rounds to the nearest integer, a tie towards [+Infinity]. *)
Definition roundZ (r : R) : Z := Int_part (r + / 2).

Module Math.

Definition sqrt (a : number) : number :=
  match a with
  | NaN | NegInfinity => NaN
  | Fin r => if Rltb r 0 then NaN else Fin (R_sqrt.sqrt r)
  | PosInfinity => PosInfinity
  end.

Definition ceil (a : number) : number :=
  match a with
  | Fin r => Fin (IZR (ceilZ r))
  | _ => a
  end.

Definition round (a : number) : number :=
  match a with
  | Fin r => Fin (IZR (roundZ r))
  | _ => a
  end.

Definition min (a b : number) : number :=
  match a, b with
  | NaN, _ | _, NaN => NaN
  | _, _ => if lt b a then b else a
  end.

Definition max (a b : number) : number :=
  match a, b with
  | NaN, _ | _, NaN => NaN
  | _, _ => if lt a b then b else a
  end.

End Math.

Definition of_nat (n : nat) : number := Fin (INR n).
Definition of_Z (z : Z) : number := Fin (IZR z).

End JS.

Import JS.

Declare Scope js_scope.
Delimit Scope js_scope with js.
Infix "+" := JS.add : js_scope.
Infix "-" := JS.sub : js_scope.
Infix "*" := JS.mul : js_scope.
Infix "/" := JS.div : js_scope.
Infix "<?" := JS.lt : js_scope.
Infix "<=?" := JS.le : js_scope.
Infix ">?" := JS.gt : js_scope.
Infix ">=?" := JS.ge : js_scope.

(** ** Data model *)

Record point : Type := { px : number; py : number }.

(** A canvas: its size and its pixel buffer, four bytes (red, green, blue,
    alpha) per pixel in row-major order, as [getImageData] returns it. *)
Record canvas : Type := {
  width : nat;
  height : nat;
  data : list Z
}.

Inductive composite : Type := SourceOver | DestinationOut.

Inductive target : Type := OverlayCanvasEl | BodyEl | WindowEl.

(** What the engine does to the outside world, in the order it does it. *)
Inductive effect : Type :=
| PreventDefault
| RevealCallback
| LoadedCallback
| DownCallback
| UpCallback
| ConsoleError
| AppendChild
| AddEventListener (t : target) (type : string)
| RequestAnimationFrame
| GetImageData
| DrawImage (dx dy : number)
| LoadImage (url : string).

(** The part of the page the engine reads: the rendered width of the parent
    element, the position of the overlay canvas in the viewport, and whether
    [window.PointerEvent] exists. *)
Record page : Type := {
  parentWidth : number;
  canvasLeft : number;
  canvasTop : number;
  hasPointerEvent : bool
}.

(** The variables of the closure [ScratchIt].  A canvas variable holds [None]
    while it is [undefined] and after a failed load (when it is [false]). *)
Record engine : Type := {
  overlayCanvas : option canvas;
  brushCanvas : option canvas;
  globalCompositeOperation : composite;
  overlayLoaded : bool;
  brushLoaded : bool;
  isPointerDown : bool;
  pointerOrigin : point;
  offsetOrigin : point;
  scale : number;
  paintQueue : list point;
  lastPoint : option point;
  minPointDist : number;
  isRevealed : bool;
  revealThreshold : number;
  layout : page;
  trace : list effect
}.

Definition origin : point := {| px := Fin 0; py := Fin 0 |}.

(** The closure as [ScratchIt] declares it, before [construct] runs. *)
Definition initial (pg : page) : engine := {|
  overlayCanvas := None;
  brushCanvas := None;
  globalCompositeOperation := SourceOver;
  overlayLoaded := false;
  brushLoaded := false;
  isPointerDown := false;
  pointerOrigin := origin;
  offsetOrigin := origin;
  scale := Fin 1;
  paintQueue := [];
  lastPoint := None;
  minPointDist := Fin 10;
  isRevealed := false;
  revealThreshold := NaN;
  layout := pg;
  trace := []
|}.

(** Assignment to one variable of the closure. *)
Definition set_overlayCanvas v (s : engine) : engine :=
  {| overlayCanvas := v; brushCanvas := brushCanvas s;
     globalCompositeOperation := globalCompositeOperation s;
     overlayLoaded := overlayLoaded s; brushLoaded := brushLoaded s;
     isPointerDown := isPointerDown s; pointerOrigin := pointerOrigin s;
     offsetOrigin := offsetOrigin s; scale := scale s;
     paintQueue := paintQueue s; lastPoint := lastPoint s;
     minPointDist := minPointDist s; isRevealed := isRevealed s;
     revealThreshold := revealThreshold s; layout := layout s;
     trace := trace s |}.

Definition set_brushCanvas v (s : engine) : engine :=
  {| overlayCanvas := overlayCanvas s; brushCanvas := v;
     globalCompositeOperation := globalCompositeOperation s;
     overlayLoaded := overlayLoaded s; brushLoaded := brushLoaded s;
     isPointerDown := isPointerDown s; pointerOrigin := pointerOrigin s;
     offsetOrigin := offsetOrigin s; scale := scale s;
     paintQueue := paintQueue s; lastPoint := lastPoint s;
     minPointDist := minPointDist s; isRevealed := isRevealed s;
     revealThreshold := revealThreshold s; layout := layout s;
     trace := trace s |}.

Definition set_globalCompositeOperation v (s : engine) : engine :=
  {| overlayCanvas := overlayCanvas s; brushCanvas := brushCanvas s;
     globalCompositeOperation := v; overlayLoaded := overlayLoaded s;
     brushLoaded := brushLoaded s; isPointerDown := isPointerDown s;
     pointerOrigin := pointerOrigin s; offsetOrigin := offsetOrigin s;
     scale := scale s; paintQueue := paintQueue s; lastPoint := lastPoint s;
     minPointDist := minPointDist s; isRevealed := isRevealed s;
     revealThreshold := revealThreshold s; layout := layout s;
     trace := trace s |}.

Definition set_overlayLoaded v (s : engine) : engine :=
  {| overlayCanvas := overlayCanvas s; brushCanvas := brushCanvas s;
     globalCompositeOperation := globalCompositeOperation s;
     overlayLoaded := v; brushLoaded := brushLoaded s;
     isPointerDown := isPointerDown s; pointerOrigin := pointerOrigin s;
     offsetOrigin := offsetOrigin s; scale := scale s;
     paintQueue := paintQueue s; lastPoint := lastPoint s;
     minPointDist := minPointDist s; isRevealed := isRevealed s;
     revealThreshold := revealThreshold s; layout := layout s;
     trace := trace s |}.

Definition set_brushLoaded v (s : engine) : engine :=
  {| overlayCanvas := overlayCanvas s; brushCanvas := brushCanvas s;
     globalCompositeOperation := globalCompositeOperation s;
     overlayLoaded := overlayLoaded s; brushLoaded := v;
     isPointerDown := isPointerDown s; pointerOrigin := pointerOrigin s;
     offsetOrigin := offsetOrigin s; scale := scale s;
     paintQueue := paintQueue s; lastPoint := lastPoint s;
     minPointDist := minPointDist s; isRevealed := isRevealed s;
     revealThreshold := revealThreshold s; layout := layout s;
     trace := trace s |}.

Definition set_isPointerDown v (s : engine) : engine :=
  {| overlayCanvas := overlayCanvas s; brushCanvas := brushCanvas s;
     globalCompositeOperation := globalCompositeOperation s;
     overlayLoaded := overlayLoaded s; brushLoaded := brushLoaded s;
     isPointerDown := v; pointerOrigin := pointerOrigin s;
     offsetOrigin := offsetOrigin s; scale := scale s;
     paintQueue := paintQueue s; lastPoint := lastPoint s;
     minPointDist := minPointDist s; isRevealed := isRevealed s;
     revealThreshold := revealThreshold s; layout := layout s;
     trace := trace s |}.

Definition set_pointerOrigin v (s : engine) : engine :=
  {| overlayCanvas := overlayCanvas s; brushCanvas := brushCanvas s;
     globalCompositeOperation := globalCompositeOperation s;
     overlayLoaded := overlayLoaded s; brushLoaded := brushLoaded s;
     isPointerDown := isPointerDown s; pointerOrigin := v;
     offsetOrigin := offsetOrigin s; scale := scale s;
     paintQueue := paintQueue s; lastPoint := lastPoint s;
     minPointDist := minPointDist s; isRevealed := isRevealed s;
     revealThreshold := revealThreshold s; layout := layout s;
     trace := trace s |}.

Definition set_offsetOrigin v (s : engine) : engine :=
  {| overlayCanvas := overlayCanvas s; brushCanvas := brushCanvas s;
     globalCompositeOperation := globalCompositeOperation s;
     overlayLoaded := overlayLoaded s; brushLoaded := brushLoaded s;
     isPointerDown := isPointerDown s; pointerOrigin := pointerOrigin s;
     offsetOrigin := v; scale := scale s; paintQueue := paintQueue s;
     lastPoint := lastPoint s; minPointDist := minPointDist s;
     isRevealed := isRevealed s; revealThreshold := revealThreshold s;
     layout := layout s; trace := trace s |}.

Definition set_scale v (s : engine) : engine :=
  {| overlayCanvas := overlayCanvas s; brushCanvas := brushCanvas s;
     globalCompositeOperation := globalCompositeOperation s;
     overlayLoaded := overlayLoaded s; brushLoaded := brushLoaded s;
     isPointerDown := isPointerDown s; pointerOrigin := pointerOrigin s;
     offsetOrigin := offsetOrigin s; scale := v; paintQueue := paintQueue s;
     lastPoint := lastPoint s; minPointDist := minPointDist s;
     isRevealed := isRevealed s; revealThreshold := revealThreshold s;
     layout := layout s; trace := trace s |}.

Definition set_paintQueue v (s : engine) : engine :=
  {| overlayCanvas := overlayCanvas s; brushCanvas := brushCanvas s;
     globalCompositeOperation := globalCompositeOperation s;
     overlayLoaded := overlayLoaded s; brushLoaded := brushLoaded s;
     isPointerDown := isPointerDown s; pointerOrigin := pointerOrigin s;
     offsetOrigin := offsetOrigin s; scale := scale s; paintQueue := v;
     lastPoint := lastPoint s; minPointDist := minPointDist s;
     isRevealed := isRevealed s; revealThreshold := revealThreshold s;
     layout := layout s; trace := trace s |}.

Definition set_lastPoint v (s : engine) : engine :=
  {| overlayCanvas := overlayCanvas s; brushCanvas := brushCanvas s;
     globalCompositeOperation := globalCompositeOperation s;
     overlayLoaded := overlayLoaded s; brushLoaded := brushLoaded s;
     isPointerDown := isPointerDown s; pointerOrigin := pointerOrigin s;
     offsetOrigin := offsetOrigin s; scale := scale s;
     paintQueue := paintQueue s; lastPoint := v;
     minPointDist := minPointDist s; isRevealed := isRevealed s;
     revealThreshold := revealThreshold s; layout := layout s;
     trace := trace s |}.

Definition set_minPointDist v (s : engine) : engine :=
  {| overlayCanvas := overlayCanvas s; brushCanvas := brushCanvas s;
     globalCompositeOperation := globalCompositeOperation s;
     overlayLoaded := overlayLoaded s; brushLoaded := brushLoaded s;
     isPointerDown := isPointerDown s; pointerOrigin := pointerOrigin s;
     offsetOrigin := offsetOrigin s; scale := scale s;
     paintQueue := paintQueue s; lastPoint := lastPoint s; minPointDist := v;
     isRevealed := isRevealed s; revealThreshold := revealThreshold s;
     layout := layout s; trace := trace s |}.

Definition set_isRevealed v (s : engine) : engine :=
  {| overlayCanvas := overlayCanvas s; brushCanvas := brushCanvas s;
     globalCompositeOperation := globalCompositeOperation s;
     overlayLoaded := overlayLoaded s; brushLoaded := brushLoaded s;
     isPointerDown := isPointerDown s; pointerOrigin := pointerOrigin s;
     offsetOrigin := offsetOrigin s; scale := scale s;
     paintQueue := paintQueue s; lastPoint := lastPoint s;
     minPointDist := minPointDist s; isRevealed := v;
     revealThreshold := revealThreshold s; layout := layout s;
     trace := trace s |}.

Definition set_revealThreshold v (s : engine) : engine :=
  {| overlayCanvas := overlayCanvas s; brushCanvas := brushCanvas s;
     globalCompositeOperation := globalCompositeOperation s;
     overlayLoaded := overlayLoaded s; brushLoaded := brushLoaded s;
     isPointerDown := isPointerDown s; pointerOrigin := pointerOrigin s;
     offsetOrigin := offsetOrigin s; scale := scale s;
     paintQueue := paintQueue s; lastPoint := lastPoint s;
     minPointDist := minPointDist s; isRevealed := isRevealed s;
     revealThreshold := v; layout := layout s; trace := trace s |}.

Definition set_layout v (s : engine) : engine :=
  {| overlayCanvas := overlayCanvas s; brushCanvas := brushCanvas s;
     globalCompositeOperation := globalCompositeOperation s;
     overlayLoaded := overlayLoaded s; brushLoaded := brushLoaded s;
     isPointerDown := isPointerDown s; pointerOrigin := pointerOrigin s;
     offsetOrigin := offsetOrigin s; scale := scale s;
     paintQueue := paintQueue s; lastPoint := lastPoint s;
     minPointDist := minPointDist s; isRevealed := isRevealed s;
     revealThreshold := revealThreshold s; layout := v; trace := trace s |}.

Definition set_trace v (s : engine) : engine :=
  {| overlayCanvas := overlayCanvas s; brushCanvas := brushCanvas s;
     globalCompositeOperation := globalCompositeOperation s;
     overlayLoaded := overlayLoaded s; brushLoaded := brushLoaded s;
     isPointerDown := isPointerDown s; pointerOrigin := pointerOrigin s;
     offsetOrigin := offsetOrigin s; scale := scale s;
     paintQueue := paintQueue s; lastPoint := lastPoint s;
     minPointDist := minPointDist s; isRevealed := isRevealed s;
     revealThreshold := revealThreshold s; layout := layout s; trace := v |}.

(** ** Handlers run in a state-and-exception monad

    A handler either returns, throws (the variables keep what was assigned
    before the throw) or never returns. *)

Inductive outcome (A : Type) : Type :=
| Return (a : A) (s : engine)
| Throw (s : engine)
| Diverge.

Arguments Return {A} a s.
Arguments Throw {A} s.
Arguments Diverge {A}.

Definition M (A : Type) : Type := engine -> outcome A.

Definition ret {A : Type} (a : A) : M A := fun s => Return a s.

Definition bind {A B : Type} (m : M A) (k : A -> M B) : M B :=
  fun s =>
    match m s with
    | Return a s' => k a s'
    | Throw s' => Throw s'
    | Diverge => Diverge
    end.

Definition throw {A : Type} : M A := fun s => Throw s.
Definition get {A : Type} (f : engine -> A) : M A := fun s => Return (f s) s.
Definition assign (f : engine -> engine) : M unit := fun s => Return tt (f s).
Definition emit (e : effect) : M unit :=
  assign (fun s => set_trace (trace s ++ [e]) s).

Declare Scope monad_scope.
Delimit Scope monad_scope with monad.
Notation "x <- m ;; k" := (bind m (fun x => k))
  (at level 61, m at next level, right associativity) : monad_scope.
Notation "m ;; k" := (bind m (fun _ => k))
  (at level 61, right associativity) : monad_scope.
Open Scope monad_scope.

(** The state a handler leaves behind, when it returns or throws. *)
Definition final {A : Type} (o : outcome A) : option engine :=
  match o with
  | Return _ s | Throw s => Some s
  | Diverge => None
  end.

(** ** Events *)

Record touch : Type := { touch_clientX : number; touch_clientY : number }.

(** The properties of a DOM event that the handlers read.  [targetTouches]
    is [None] on mouse and pointer events; [offset] is [Some] when
    [typeof event.offsetX === 'number']; [originalEvent_layerX] tells whether
    [event.originalEvent] exists with a numeric [layerX]; [touches] is empty
    when [event.touches] is missing or has no first element. *)
Record event : Type := {
  targetTouches : option (list touch);
  clientX : number;
  clientY : number;
  offset : option point;
  originalEvent_layerX : bool;
  touches : list touch
}.

Definition cancelEvent (ev : event) : M unit := emit PreventDefault.

Definition getPointFromEvent (ev : event) : M point :=
  match targetTouches ev with
  | Some (t :: _) => ret {| px := touch_clientX t; py := touch_clientY t |}
  | Some [] => throw
  | None => ret {| px := clientX ev; py := clientY ev |}
  end.

(** The second branch reads [event.oritinalEvent], which no event has: it
    throws. *)
Definition getOffsetPointFromEvent (ev : event) : M point :=
  match offset ev with
  | Some p => ret p
  | None =>
      if originalEvent_layerX ev then throw
      else
        pg <- get layout ;;
        match touches ev with
        | t :: _ =>
            ret {| px := (touch_clientX t - canvasLeft pg)%js;
                   py := (touch_clientY t - canvasTop pg)%js |}
        | [] => throw
        end
  end.

(** ** Stroke interpolator *)

Definition push (p : point) : M unit :=
  assign (fun s => set_paintQueue (paintQueue s ++ [p]) s).

(** [for (i = 1; i < numSegments; i++) paintQueue.push({...})], from the
    current value of [i]. *)
Fixpoint tween_loop (fuel : nat) (i numSegments : number) (p : point)
    (dx dy : number) : M unit :=
  if (i <? numSegments)%js then
    match fuel with
    | O => fun _ => Diverge
    | S fuel' =>
        push {| px := Math.round (px p + i * dx)%js;
                py := Math.round (py p + i * dy)%js |} ;;
        tween_loop fuel' (i + Fin 1)%js numSegments p dx dy
    end
  else ret tt.

Definition distance (last p : point) : number :=
  let dx := (px last - px p)%js in
  let dy := (py last - py p)%js in
  Math.sqrt (dx * dx + dy * dy)%js.

Definition addPoint (fuel : nat) (p : point) (tween : bool) : M unit :=
  last <- get lastPoint ;;
  (match tween, last with
   | true, Some last =>
       let dx := (px last - px p)%js in
       let dy := (py last - py p)%js in
       let dist := Math.sqrt (dx * dx + dy * dy)%js in
       minPointDist <- get minPointDist ;;
       if (dist >? minPointDist)%js then
         let numSegments := Math.ceil (dist / minPointDist)%js in
         let dx := (dx / numSegments)%js in
         let dy := (dy / numSegments)%js in
         tween_loop fuel (Fin 1) numSegments p dx dy
       else ret tt
   | _, _ => ret tt
   end) ;;
  let p' := {| px := Math.round (px p); py := Math.round (py p) |} in
  assign (set_lastPoint (Some p')) ;;
  push p'.

(** ** Reveal detector *)

(** [for (i = 0; i < pixels.data.length; i += 4)
       if (pixels.data[i + 3] <= alphaThreshold) numVisible++]. *)
Definition alphaThreshold : Z := 128.

Fixpoint countVisible (pixels : list Z) : nat :=
  match pixels with
  | _ :: _ :: _ :: a :: rest =>
      ((if (a <=? alphaThreshold)%Z then 1 else 0) + countVisible rest)%nat
  | _ => O
  end.

(** [getImageData(0, 0, w, h)] throws an [IndexSizeError] when the rectangle
    is empty. *)
Definition getImageData (c : canvas) : M (list Z) :=
  match width c, height c with
  | O, _ | _, O => throw
  | _, _ => emit GetImageData ;; ret (data c)
  end.

Definition revealedPercent (numVisible : nat) (totalPixels : number) : number :=
  (of_nat numVisible / totalPixels * Fin 100)%js.

Definition testRevealed : M unit :=
  overlay <- get overlayCanvas ;;
  match overlay with
  | None => throw
  | Some overlay =>
      let totalPixels := (of_nat (width overlay) * of_nat (height overlay))%js in
      revealed <- get isRevealed ;;
      if revealed then ret tt
      else
        pixels <- getImageData overlay ;;
        let numVisible := countVisible pixels in
        threshold <- get revealThreshold ;;
        if (revealedPercent numVisible totalPixels >=? threshold)%js then
          emit RevealCallback ;;
          assign (set_isRevealed true)
        else ret tt
  end.

(** ** Input state machine *)

Definition onPointerDown (fuel : nat) (ev : event) : M unit :=
  cancelEvent ev ;;
  assign (set_isPointerDown true) ;;
  p <- getPointFromEvent ev ;;
  assign (set_pointerOrigin p) ;;
  o <- getOffsetPointFromEvent ev ;;
  assign (set_offsetOrigin o) ;;
  offsetOrigin <- get offsetOrigin ;;
  scale <- get scale ;;
  addPoint fuel {| px := (px offsetOrigin * scale)%js;
                   py := (py offsetOrigin * scale)%js |} false ;;
  emit DownCallback.

Definition onPointerMove (fuel : nat) (ev : event) : M unit :=
  down <- get isPointerDown ;;
  if negb down then ret tt
  else
    cancelEvent ev ;;
    pointerPosition <- getPointFromEvent ev ;;
    offsetOrigin <- get offsetOrigin ;;
    pointerOrigin <- get pointerOrigin ;;
    scale <- get scale ;;
    addPoint fuel
      {| px := ((px offsetOrigin + (px pointerPosition - px pointerOrigin))
                * scale)%js;
         py := ((py offsetOrigin + (py pointerPosition - py pointerOrigin))
                * scale)%js |} true.

Definition onPointerUp (ev : event) : M unit :=
  down <- get isPointerDown ;;
  if negb down then ret tt
  else
    cancelEvent ev ;;
    assign (set_isPointerDown false) ;;
    assign (set_lastPoint None) ;;
    assign (set_pointerOrigin origin) ;;
    assign (set_offsetOrigin origin) ;;
    emit UpCallback ;;
    testRevealed.

(** ** Viewport transform *)

Definition onResize : M unit :=
  pg <- get layout ;;
  overlay <- get overlayCanvas ;;
  match overlay with
  | None => throw
  | Some overlay =>
      assign (set_scale (Fin 1 / (parentWidth pg / of_nat (width overlay)))%js)
  end.

(** ** Render loop

    What the 2D context does with [drawImage] belongs to the browser: it is a
    parameter, a function of the compositing operation in force, the source
    canvas, the position and the destination canvas. *)

Definition rasterizer : Type :=
  composite -> canvas -> number -> number -> canvas -> canvas.

Section RenderLoop.

Variable drawImage : rasterizer.

(** [while (paintQueue.length) { point = paintQueue.shift(); ... }]: the
    queue holds [queue] when the loop is entered. *)
Fixpoint drain (queue : list point) : M unit :=
  match queue with
  | [] => ret tt
  | p :: rest =>
      assign (set_paintQueue rest) ;;
      brush <- get brushCanvas ;;
      overlay <- get overlayCanvas ;;
      op <- get globalCompositeOperation ;;
      match brush, overlay with
      | Some brush, Some overlay =>
          let dx := (px p - of_nat (width brush) / Fin 2)%js in
          let dy := (py p - of_nat (height brush) / Fin 2)%js in
          emit (DrawImage dx dy) ;;
          assign (set_overlayCanvas (Some (drawImage op brush dx dy overlay))) ;;
          drain rest
      | _, _ => throw
      end
  end.

Definition draw : M unit :=
  queue <- get paintQueue ;;
  drain queue ;;
  emit RequestAnimationFrame.

End RenderLoop.

(** ** Surface loader and initialisation *)

Definition addEventListeners : M unit :=
  pg <- get layout ;;
  if hasPointerEvent pg then
    emit (AddEventListener OverlayCanvasEl "pointerdown") ;;
    emit (AddEventListener BodyEl "pointerup") ;;
    emit (AddEventListener BodyEl "pointerleave") ;;
    emit (AddEventListener BodyEl "pointermove")
  else
    emit (AddEventListener OverlayCanvasEl "mousedown") ;;
    emit (AddEventListener BodyEl "mouseup") ;;
    emit (AddEventListener BodyEl "mouseleave") ;;
    emit (AddEventListener BodyEl "mousemove") ;;
    emit (AddEventListener OverlayCanvasEl "touchstart") ;;
    emit (AddEventListener BodyEl "touchend") ;;
    emit (AddEventListener BodyEl "touchmove").

Definition onCanvasLoaded : M unit :=
  overlayLoaded <- get overlayLoaded ;;
  brushLoaded <- get brushLoaded ;;
  if negb (overlayLoaded && brushLoaded) then ret tt
  else
    overlay <- get overlayCanvas ;;
    brush <- get brushCanvas ;;
    match overlay, brush with
    | Some overlay, Some brush =>
        emit AppendChild ;;
        assign (set_globalCompositeOperation DestinationOut) ;;
        assign (set_minPointDist (of_nat (width brush) / Fin 2)%js) ;;
        addEventListeners ;;
        emit (AddEventListener WindowEl "resize") ;;
        onResize ;;
        emit RequestAnimationFrame ;;
        emit LoadedCallback
    | _, _ => emit ConsoleError
    end.

(** The two callbacks that [construct] hands to [getCanvasFromImage]; the
    argument is the canvas, or [None] for [false]. *)
Definition overlaySettled (c : option canvas) : M unit :=
  assign (set_overlayLoaded true) ;;
  assign (set_overlayCanvas c) ;;
  onCanvasLoaded.

Definition brushSettled (c : option canvas) : M unit :=
  assign (set_brushLoaded true) ;;
  assign (set_brushCanvas c) ;;
  onCanvasLoaded.

(** Values handed to the constructor.  A string carries the number that
    [ToNumber] makes of it ([NaN] when it spells none). *)
Inductive jsvalue : Type :=
| JSUndefined
| JSNull
| JSBoolean (b : bool)
| JSNumber (n : number)
| JSString (s : string) (n : number)
| JSFunction
| JSElement
| JSObject.

Definition ToNumber (v : jsvalue) : number :=
  match v with
  | JSUndefined => NaN
  | JSNull => Fin 0
  | JSBoolean b => if b then Fin 1 else Fin 0
  | JSNumber n => n
  | JSString _ n => n
  | JSFunction | JSElement | JSObject => NaN
  end.

Definition isDomElement (el : jsvalue) : bool :=
  match el with JSElement => true | _ => false end.

Definition isFunction (v : jsvalue) : bool :=
  match v with JSFunction => true | _ => false end.

(** [getCanvasFromImage]: a URL that is not a string fails at once; any
    other load is started, and settles later through its callback. *)
Definition getCanvasFromImage (imgUrl : jsvalue)
    (callback : option canvas -> M unit) : M unit :=
  match imgUrl with
  | JSString url _ => emit (LoadImage url)
  | _ => callback None
  end.

Definition threshold_of (arguments : list jsvalue) : number :=
  Math.max (Fin 0)
    (Math.min (Fin 100)
       (if (4 <? List.length arguments)%nat
        then (ToNumber (nth 4 arguments JSUndefined) * Fin 1)%js
        else Fin 0)).

(** [construct(el, overlayUrl, brushUrl, callback, threshold, ...)]; the
    three observer callbacks that may follow are taken to be functions. *)
Definition construct (arguments : list jsvalue) : M unit :=
  let parentEl := nth 0 arguments JSUndefined in
  let callback :=
    if (3 <? List.length arguments)%nat then nth 3 arguments JSUndefined
    else JSFunction in
  let threshold := threshold_of arguments in
  if negb (isDomElement parentEl) then throw
  else if negb (isFunction callback) then throw
  else
    assign (set_revealThreshold threshold) ;;
    getCanvasFromImage (nth 1 arguments JSUndefined) overlaySettled ;;
    getCanvasFromImage (nth 2 arguments JSUndefined) brushSettled.

(** ** The engine as a transition system

    After [construct], the browser calls the engine back: a load settles, a
    pointer event arrives, the window is resized (the page layout changes,
    then the debounced [onResize] runs), a frame is due. *)
Inductive callback : Type :=
| OverlaySettled (c : option canvas)
| BrushSettled (c : option canvas)
| PointerDown (ev : event)
| PointerMove (ev : event)
| PointerUp (ev : event)
| Relayout (pg : page)
| Resize
| Frame.

Definition dispatch (drawImage : rasterizer) (fuel : nat) (cb : callback)
  : M unit :=
  match cb with
  | OverlaySettled c => overlaySettled c
  | BrushSettled c => brushSettled c
  | PointerDown ev => onPointerDown fuel ev
  | PointerMove ev => onPointerMove fuel ev
  | PointerUp ev => onPointerUp ev
  | Relayout pg => assign (set_layout pg)
  | Resize => onResize
  | Frame => draw drawImage
  end.

(** One callback runs to completion (it returns or throws) before the next
    is dispatched. *)
Inductive step (drawImage : rasterizer) (s s' : engine) : Prop :=
| step_intro (fuel : nat) (cb : callback) :
    final (dispatch drawImage fuel cb s) = Some s' -> step drawImage s s'.

Inductive steps (drawImage : rasterizer) (s : engine) : engine -> Prop :=
| steps_refl : steps drawImage s s
| steps_step s' s'' :
    steps drawImage s s' -> step drawImage s' s'' -> steps drawImage s s''.

(** ** Fitting the parent element *)

(** The two lengths, in pixels, that [resizeParentEl] writes to
    [parentEl.style]. *)
Record style : Type := { style_width : number; style_height : number }.

(** [resizeParentEl(image)], for an image of [naturalWidth] by
    [naturalHeight] pixels in a body of [clientWidth] by [clientHeight]. *)
Definition resizeParentEl
    (naturalWidth naturalHeight clientWidth clientHeight : number) : style :=
  let w := naturalWidth in
  let h := naturalHeight in
  let ratio := (h / w)%js in
  let pw := clientWidth in
  let ph := clientHeight in
  let ratioX := (pw / w)%js in
  let ratioY := (ph / h)%js in
  if (ratioY <? ratioX)%js then
    {| style_height := ph; style_width := (ph * ratio)%js |}
  else
    {| style_width := pw; style_height := (pw * ratio)%js |}.

(** ** Debounce *)

(** [debounce(func, wait, immediate)] returns a closure over the variable
    [timeout].  Its state is that variable ([None] for [undefined] and
    [null], else the id of the last timer set) together with what it acts
    on: the timers of the browser that are still pending, each with the
    arguments its [later] closes over, the next timer id, and the calls of
    [func] made so far, by their arguments. *)
Section Debounce.

Variable A : Type.

Record debouncer : Type := {
  timeout : option nat;
  timers : list (nat * A);
  nextId : nat;
  calls : list A
}.

Definition clearTimeout (id : option nat) (pending : list (nat * A))
  : list (nat * A) :=
  match id with
  | None => pending
  | Some i => filter (fun t => negb (fst t =? i)%nat) pending
  end.

(** A call, with arguments [args], of the function that [debounce]
    returned. *)
Definition debounce (immediate : bool) (args : A) (d : debouncer)
  : debouncer :=
  let callNow :=
    immediate && match timeout d with Some _ => false | None => true end in
  let pending := clearTimeout (timeout d) (timers d) in
  let id := nextId d in
  {| timeout := Some id;
     timers := pending ++ [(id, args)];
     nextId := S id;
     calls := if callNow then calls d ++ [args] else calls d |}.

(** The function [later] of the call that had arguments [args]. *)
Definition later (immediate : bool) (args : A) (d : debouncer) : debouncer :=
  {| timeout := None;
     timers := timers d;
     nextId := nextId d;
     calls := if negb immediate then calls d ++ [args] else calls d |}.

(** The browser runs the timer [id], if it is still pending. *)
Definition expire (immediate : bool) (id : nat) (d : debouncer) : debouncer :=
  match find (fun t => (fst t =? id)%nat) (timers d) with
  | Some (_, args) =>
      later immediate args
        {| timeout := timeout d;
           timers := clearTimeout (Some id) (timers d);
           nextId := nextId d;
           calls := calls d |}
  | None => d
  end.

(** What happens to a debounced function: it is called, or one of the
    timers comes due. *)
Inductive tick : Type :=
| Call (args : A)
| Expire (id : nat).

Definition tick_step (immediate : bool) (d : debouncer) (t : tick)
  : debouncer :=
  match t with
  | Call args => debounce immediate args d
  | Expire id => expire immediate id d
  end.

Definition ticks (immediate : bool) (ts : list tick) (d : debouncer)
  : debouncer :=
  fold_left (tick_step immediate) ts d.

(** The closure as [debounce] returns it: [timeout] is [undefined]. *)
Definition created : debouncer :=
  {| timeout := None; timers := []; nextId := 1; calls := [] |}.

End Debounce.

Arguments timeout {A} _.
Arguments timers {A} _.
Arguments nextId {A} _.
Arguments calls {A} _.
Arguments clearTimeout {A} _ _.
Arguments debounce {A} _ _ _.
Arguments later {A} _ _ _.
Arguments expire {A} _ _ _.
Arguments Call {A} _.
Arguments Expire {A} _.
Arguments tick_step {A} _ _ _.
Arguments ticks {A} _ _ _.

(** ** The observer hooks and the host component *)

(** [arguments.length > k ? arguments[k] : function () {}]: the argument
    at position [k], [None] for the default function. *)
Definition argument {V : Type} (k : nat) (arguments : list V) : option V :=
  if (k <? List.length arguments)%nat then nth_error arguments k else None.

(** The four callbacks [construct] stores. *)
Record hooks (V : Type) : Type := {
  revealCallback : option V;
  loadedCallback : option V;
  downCallback : option V;
  upCallback : option V
}.

Arguments revealCallback {V} _.
Arguments loadedCallback {V} _.
Arguments downCallback {V} _.
Arguments upCallback {V} _.

Definition hooks_of {V : Type} (arguments : list V) : hooks V :=
  {| revealCallback := argument 3 arguments;
     loadedCallback := argument 5 arguments;
     downCallback := argument 6 arguments;
     upCallback := argument 7 arguments |}.

(** The callback that an effect of the trace is a call of. *)
Definition callee {V : Type} (h : hooks V) (e : effect) : option V :=
  match e with
  | RevealCallback => revealCallback h
  | LoadedCallback => loadedCallback h
  | DownCallback => downCallback h
  | UpCallback => upCallback h
  | _ => None
  end.

(** The values that [myInit] of the host component passes to [ScratchIt]:
    the element, two resolved paths, the function [reveal], two properties
    of the component and three functions that each send one message. *)
Inductive hostvalue : Type :=
| ScratchElement
| ResolvedPath (name : string)
| Reveal
| Property (name : string)
| Sender (name : string).

Definition myInit_arguments : list hostvalue :=
  [ScratchElement; ResolvedPath "overlayImgUrl"; ResolvedPath "brushImgUrl";
   Reveal; Property "revealPercent"; Property "brushSize";
   Sender "onLoaded"; Sender "onStartScratching"; Sender "onEndScratching"].

(** A message sent through [PandaBridge.send]: the constant
    [PandaBridge.UPDATED], or a name. *)
Inductive message : Type :=
| UPDATED
| Named (name : string).

(** The messages the host sends when the engine calls a value: [reveal]
    sends [PandaBridge.UPDATED] and then ['revealed'], a sender its
    message; a property of the component is none of the host's functions,
    and the default function does nothing. *)
Definition sends (v : option hostvalue) : list message :=
  match v with
  | Some Reveal => [UPDATED; Named "revealed"]
  | Some (Sender name) => [Named name]
  | _ => []
  end.

(** * Vocabulary of the properties *)

(** ** Points and interpolation *)

Definition at_ (x y : R) : point := {| px := Fin x; py := Fin y |}.

(** The point as it is stored and queued: both coordinates rounded. *)
Definition rounded (p : point) : point :=
  {| px := Math.round (px p); py := Math.round (py p) |}.

(** The state after a call of [addPoint] that pushed [mids] and then the
    point itself. *)
Definition added (mids : list point) (p : point) (s : engine) : engine :=
  set_paintQueue (paintQueue s ++ mids ++ [rounded p])
    (set_lastPoint (Some (rounded p)) s).

(** The point the loop pushes at counter [i]. *)
Definition intermediate (p : point) (dx dy : number) (i : Z) : point :=
  {| px := Math.round (px p + of_Z i * dx)%js;
     py := Math.round (py p + of_Z i * dy)%js |}.

Fixpoint Zrange (start : Z) (count : nat) : list Z :=
  match count with
  | O => []
  | S count' => start :: Zrange (start + 1) count'
  end.

(** Euclidean distance between [(lx, ly)] and [(x, y)]. *)
Definition euclid (lx ly x y : R) : R :=
  sqrt ((lx - x) * (lx - x) + (ly - y) * (ly - y)).

(** The [i]-th intermediate point between the new point [(x, y)] and the
    previous point [(lx, ly)], for [n] segments. *)
Definition tween_point (lx ly x y : R) (n i : Z) : point :=
  {| px := of_Z (roundZ (x + IZR i / IZR n * (lx - x)));
     py := of_Z (roundZ (y + IZR i / IZR n * (ly - y))) |}.

Definition tween_points (lx ly x y : R) (n : Z) : list point :=
  map (tween_point lx ly x y n) (Zrange 1 (Z.to_nat (n - 1))).


(** ** Outcomes of a handler *)

(** [respects R m]: whenever [m] returns or throws, the states before and
    after are related by [R]. *)
Definition respects {A : Type} (R : engine -> engine -> Prop) (m : M A) : Prop :=
  forall s s' : engine, final (m s) = Some s' -> R s s'.

(** ** Traces *)

Definition is_reveal (e : effect) : bool :=
  match e with RevealCallback => true | _ => false end.

(** How many times the completion callback has been called. *)
Definition reveals (t : list effect) : nat := List.length (filter is_reveal t).

Definition is_loaded (e : effect) : bool :=
  match e with LoadedCallback => true | _ => false end.

(** How many times the ready callback has been called. *)
Definition readies (t : list effect) : nat := List.length (filter is_loaded t).

Definition listeners (pg : page) : list effect :=
  if hasPointerEvent pg then
    [AddEventListener OverlayCanvasEl "pointerdown";
     AddEventListener BodyEl "pointerup";
     AddEventListener BodyEl "pointerleave";
     AddEventListener BodyEl "pointermove"]
  else
    [AddEventListener OverlayCanvasEl "mousedown";
     AddEventListener BodyEl "mouseup";
     AddEventListener BodyEl "mouseleave";
     AddEventListener BodyEl "mousemove";
     AddEventListener OverlayCanvasEl "touchstart";
     AddEventListener BodyEl "touchend";
     AddEventListener BodyEl "touchmove"].

(** What a successful initialisation does, in order. *)
Definition initialisation (pg : page) : list effect :=
  AppendChild :: listeners pg ++
  [AddEventListener WindowEl "resize"; RequestAnimationFrame; LoadedCallback].

(** What the join adds to the trace: the whole initialisation when both
    loads succeeded, the error message otherwise. *)
Definition join_effects (o b : option canvas) (pg : page) : list effect :=
  match o, b with
  | Some _, Some _ => initialisation pg
  | _, _ => [ConsoleError]
  end.

(** ** Pixels *)

(** The alpha byte of pixel [k] of a buffer. *)
Definition alphaAt (pixels : list Z) (k : nat) : Z := nth (4 * k + 3) pixels 0%Z.

Definition isVisible (pixels : list Z) (k : nat) : bool :=
  (alphaAt pixels k <=? alphaThreshold)%Z.

(** The pixels, among the first [total], whose alpha is at most 128. *)
Definition visiblePixels (pixels : list Z) (total : nat) : list nat :=
  filter (isVisible pixels) (seq 0 total).

Definition well_formed (c : canvas) : Prop :=
  (0 < width c)%nat /\ (0 < height c)%nat /\
  List.length (data c) = (4 * (width c * height c))%nat.

(** Every byte of the buffer is a byte. *)
Definition bytes (c : canvas) : Prop :=
  Forall (fun v : Z => (0 <= v <= 255)%Z) (data c).

(** [after] is [before] with some alpha removed: same size, and no pixel
    more opaque. *)
Definition erases (before after : canvas) : Prop :=
  width after = width before /\
  height after = height before /\
  List.length (data after) = List.length (data before) /\
  forall k : nat, (alphaAt (data after) k <= alphaAt (data before) k)%Z.

(** ** Events *)

(** The coordinates a handler extracts from an event, [None] when the
    extraction throws. *)
Definition pointOf (ev : event) : option point :=
  match targetTouches ev with
  | Some (t :: _) => Some {| px := touch_clientX t; py := touch_clientY t |}
  | Some [] => None
  | None => Some {| px := clientX ev; py := clientY ev |}
  end.

Definition offsetPointOf (pg : page) (ev : event) : option point :=
  match offset ev with
  | Some p => Some p
  | None =>
      if originalEvent_layerX ev then None
      else
        match touches ev with
        | t :: _ =>
            Some {| px := (touch_clientX t - canvasLeft pg)%js;
                    py := (touch_clientY t - canvasTop pg)%js |}
        | [] => None
        end
  end.

(** ** States *)

(** From [s] to [s']: the flag is never cleared, and the callback was called
    exactly when the flag went up. *)
Definition once (s s' : engine) : Prop :=
  (reveals (trace s') + Nat.b2n (isRevealed s) =
   reveals (trace s) + Nat.b2n (isRevealed s'))%nat /\
  (isRevealed s = true -> isRevealed s' = true).

(** From [s] to [s']: the two canvases and the compositing operation are
    the same, and the ready callback was not called. *)
Definition untouched (s s' : engine) : Prop :=
  overlayCanvas s' = overlayCanvas s /\
  brushCanvas s' = brushCanvas s /\
  globalCompositeOperation s' = globalCompositeOperation s /\
  readies (trace s') = readies (trace s).

(** From [s] to [s']: the ready callback was not called. *)
Definition quiet (s s' : engine) : Prop :=
  readies (trace s') = readies (trace s).

(** The engine after a successful initialisation. *)
Definition initialised (s : engine) (overlay brush : canvas) : Prop :=
  overlayCanvas s = Some overlay /\
  brushCanvas s = Some brush /\
  globalCompositeOperation s = DestinationOut /\
  bytes overlay /\ bytes brush.

(** The state after a call that read the pixels and called the completion
    callback, and after one that read them and did not. *)
Definition fired (s : engine) : engine :=
  set_isRevealed true (set_trace (trace s ++ [GetImageData; RevealCallback]) s).

Definition unfired (s : engine) : engine :=
  set_trace (trace s ++ [GetImageData]) s.

(** The state in which [onPointerUp] calls the reveal detector: the event
    cancelled, the stroke closed, the last point forgotten, the origins
    reset, the stroke-end hook called. *)
Definition released (s : engine) : engine :=
  let s1 := set_trace (trace s ++ [PreventDefault]) s in
  let s2 := set_isPointerDown false s1 in
  let s3 := set_lastPoint None s2 in
  let s4 := set_pointerOrigin origin s3 in
  let s5 := set_offsetOrigin origin s4 in
  set_trace (trace s5 ++ [UpCallback]) s5.

(** The state after a pointer-down at screen position [p] and canvas offset
    [o]. *)
Definition pressed (p o : point) (s : engine) : engine :=
  let first :=
    rounded {| px := (px o * scale s)%js; py := (py o * scale s)%js |} in
  set_trace (trace s ++ [PreventDefault; DownCallback])
    (set_paintQueue (paintQueue s ++ [first])
       (set_lastPoint (Some first)
          (set_offsetOrigin o
             (set_pointerOrigin p (set_isPointerDown true s))))).

(** [n] lies in the closed interval from 0 to 100. *)
Definition percentage (n : number) : bool :=
  ((Fin 0 <=? n) && (n <=? Fin 100))%js.

(** Both loads have settled, with outcomes [o] and [b]. *)
Definition settled (o b : option canvas) (s : engine) : engine :=
  set_brushCanvas b
    (set_brushLoaded true (set_overlayCanvas o (set_overlayLoaded true s))).

(** The engine once initialised over the canvases [overlay] and [brush]. *)
Definition ready (overlay brush : canvas) (s : engine) : engine :=
  set_trace (trace s ++ initialisation (layout s))
    (set_scale (Fin 1 / (parentWidth (layout s) / of_nat (width overlay)))%js
       (set_minPointDist (of_nat (width brush) / Fin 2)%js
          (set_globalCompositeOperation DestinationOut
             (settled (Some overlay) (Some brush) s)))).

(** The engine after a load failed. *)
Definition failed (o b : option canvas) (s : engine) : engine :=
  set_trace (trace s ++ [ConsoleError]) (settled o b s).

(** The engine after both loads settled with outcomes [o] and [b]. *)
Definition joined (o b : option canvas) (s : engine) : engine :=
  match o, b with
  | Some overlay, Some brush => ready overlay brush s
  | _, _ => failed o b s
  end.

(** ** Runs *)

(** The callbacks of [cbs] delivered in order, each with [fuel]; [None] when
    one of them does not return. *)
Fixpoint run (drawImage : rasterizer) (fuel : nat) (cbs : list callback)
    (s : engine) : option engine :=
  match cbs with
  | [] => Some s
  | cb :: rest =>
      match final (dispatch drawImage fuel cb s) with
      | Some s' => run drawImage fuel rest s'
      | None => None
      end
  end.

(** The callbacks the browser delivers once both loads have settled. *)
Definition interaction (cb : callback) : bool :=
  match cb with
  | OverlaySettled _ | BrushSettled _ => false
  | _ => true
  end.

Inductive interactions (drawImage : rasterizer) (s : engine) : engine -> Prop :=
| interactions_refl : interactions drawImage s s
| interactions_step (s' s'' : engine) (fuel : nat) (cb : callback) :
    interactions drawImage s s' ->
    interaction cb = true ->
    final (dispatch drawImage fuel cb s') = Some s'' ->
    interactions drawImage s s''.

(** ** The browser's rasterizer

    [erasing] is what is assumed of it.  [drawImage_ref] is a reference
    rasterizer that meets the assumption: Porter-Duff compositing of the
    alpha byte, the source placed at the pixel that contains [(dx, dy)];
    the colour bytes are left alone, the engine never reads them. *)

(** What is assumed of the browser: drawing with ['destination-out'] keeps
    the size of the destination and takes alpha away from it. *)
Definition erasing (drawImage : rasterizer) : Prop :=
  forall (src : canvas) (dx dy : number) (dst : canvas),
    bytes src -> bytes dst ->
    bytes (drawImage DestinationOut src dx dy dst) /\
    erases dst (drawImage DestinationOut src dx dy dst).

Definition blend (op : composite) (src dst : Z) : Z :=
  match op with
  | SourceOver => (src + dst * (255 - src) / 255)%Z
  | DestinationOut => (dst * (255 - src) / 255)%Z
  end.

Definition sourceAlpha (src : canvas) (sx sy : Z) : Z :=
  if ((0 <=? sx) && (sx <? Z.of_nat (width src)) &&
      (0 <=? sy) && (sy <? Z.of_nat (height src)))%Z
  then alphaAt (data src) (Z.to_nat (sy * Z.of_nat (width src) + sx))
  else 0%Z.

Definition compose (op : composite) (src dst : canvas) (ox oy : Z)
    (k : nat) (v : Z) : Z :=
  if (k mod 4 =? 3)%nat then
    let pixel := (k / 4)%nat in
    let col := Z.of_nat (pixel mod width dst) in
    let row := Z.of_nat (pixel / width dst) in
    blend op (sourceAlpha src (col - ox) (row - oy)) v
  else v.

Fixpoint mapi {A B : Type} (f : nat -> A -> B) (k : nat) (l : list A) : list B :=
  match l with
  | [] => []
  | a :: l' => f k a :: mapi f (S k) l'
  end.

Definition drawImage_ref : rasterizer :=
  fun op src dx dy dst =>
    match dx, dy with
    | Fin rx, Fin ry =>
        {| width := width dst;
           height := height dst;
           data := mapi (compose op src dst (floorZ rx) (floorZ ry)) 0 (data dst) |}
    | _, _ => dst
    end.

(** ** Example data *)

(** A page with pointer events, the parent element 400 pixels wide. *)
Definition page0 : page :=
  {| parentWidth := Fin 400; canvasLeft := Fin 0; canvasTop := Fin 0;
     hasPointerEvent := true |}.

(** An opaque brush of 20 by 20 pixels. *)
Definition brush20 : canvas :=
  {| width := 20; height := 20; data := repeat 255%Z 1600 |}.

(** A stroke is under way: the previous point is [(0, 0)], the queue has
    been drained. *)
Definition stroke0 : engine :=
  set_lastPoint (Some (at_ 0 0))
    (set_isPointerDown true
       (set_minPointDist (of_nat 20 / Fin 2)%js
          (set_brushCanvas (Some brush20) (initial page0)))).

(** One opaque pixel and one pixel erased below the cutoff. *)
Definition overlay2 : canvas :=
  {| width := 2; height := 1; data := [10; 20; 30; 255; 10; 20; 30; 100]%Z |}.

(** An initialised engine in the middle of a stroke. *)
Definition armed (threshold : number) : engine :=
  set_revealThreshold threshold
    (set_globalCompositeOperation DestinationOut
       (set_overlayLoaded true
          (set_brushLoaded true
             (set_overlayCanvas (Some overlay2) stroke0)))).

(** A pointer-down of the mouse, one pixel into the canvas. *)
Definition down0 : event :=
  {| targetTouches := None; clientX := Fin 5; clientY := Fin 5;
     offset := Some (at_ 1 0); originalEvent_layerX := false; touches := [] |}.

(** A pointer-up of the mouse. *)
Definition up0 : event :=
  {| targetTouches := None; clientX := Fin 35; clientY := Fin 5;
     offset := Some (at_ 31 0); originalEvent_layerX := false; touches := [] |}.

(** A construction with a threshold of 50 per cent. *)
Definition arguments0 : list jsvalue :=
  [JSElement; JSString "overlay.png" NaN; JSString "brush.png" NaN;
   JSFunction; JSNumber (Fin 50)].

(** The arguments [index.js] passes when the host leaves [revealPercent]
    unset: the fifth one is [undefined]. *)
Definition arguments_unset : list jsvalue :=
  [JSElement; JSString "overlay.png" NaN; JSString "brush.png" NaN;
   JSFunction; JSUndefined].

(** The brush and the overlay load, then the pointer goes down. *)
Definition lifetime0 : list callback :=
  [OverlaySettled (Some overlay2); BrushSettled (Some brush20);
   PointerDown down0].

(** An opaque overlay of 200 by 100 pixels, in a parent element resized to
    800 pixels. *)
Definition overlay200 : canvas :=
  {| width := 200; height := 100; data := repeat 255%Z (4 * 200 * 100) |}.

Definition page800 : page :=
  {| parentWidth := Fin 800; canvasLeft := Fin 0; canvasTop := Fin 0;
     hasPointerEvent := true |}.

Definition resized0 : engine :=
  set_layout page800 (set_overlayCanvas (Some overlay200) (initial page0)).

(** One stroke point painted on the two-pixel overlay. *)
Definition painting0 : engine :=
  set_paintQueue [at_ 1 0] (ready overlay2 brush20 (initial page0)).

(** ** The stroke state over a run *)

(** A number that [Math.round] leaves alone: an integer, or not finite. *)
Definition whole (n : number) : Prop := Math.round n = n.

Definition whole_point (p : point) : Prop := whole (px p) /\ whole (py p).

(** Every queued point, and the last point, has whole coordinates. *)
Definition queue_whole (s : engine) : Prop :=
  Forall whole_point (paintQueue s) /\
  (forall p : point, lastPoint s = Some p -> whole_point p).

(** No stroke is open: nothing of the last one is remembered. *)
Definition idle_clean (s : engine) : Prop :=
  isPointerDown s = false ->
  lastPoint s = None /\ pointerOrigin s = origin /\ offsetOrigin s = origin.

(** From [s] to [s']: the queue only grew, at its end. *)
Definition appends (s s' : engine) : Prop :=
  exists suffix : list point, paintQueue s' = paintQueue s ++ suffix.

(** From [s] to [s']: the stroke variables are the same. *)
Definition same_stroke (s s' : engine) : Prop :=
  isPointerDown s' = isPointerDown s /\
  lastPoint s' = lastPoint s /\
  pointerOrigin s' = pointerOrigin s /\
  offsetOrigin s' = offsetOrigin s.

(** From [s] to [s']: an open stroke stays open. *)
Definition stays_down (s s' : engine) : Prop :=
  isPointerDown s = true -> isPointerDown s' = true.

Definition keeps_whole (s s' : engine) : Prop := queue_whole s -> queue_whole s'.

(** What [onPointerDown] does once it has opened the stroke. *)
Definition afterOpening (fuel : nat) (ev : event) : M unit :=
  p <- getPointFromEvent ev ;;
  assign (set_pointerOrigin p) ;;
  o <- getOffsetPointFromEvent ev ;;
  assign (set_offsetOrigin o) ;;
  offsetOrigin <- get offsetOrigin ;;
  scale <- get scale ;;
  addPoint fuel {| px := (px offsetOrigin * scale)%js;
                   py := (py offsetOrigin * scale)%js |} false ;;
  emit DownCallback.

(** The loads settle, then the pointer moves without having gone down. *)
Definition lifetime_idle : list callback :=
  [OverlaySettled (Some overlay2); BrushSettled (Some brush20);
   PointerMove down0].

(** ** The render loop *)

(** The effect of stamping the brush for the queued point [p]. *)
Definition stamp (brush : canvas) (p : point) : effect :=
  DrawImage (px p - of_nat (width brush) / Fin 2)%js
            (py p - of_nat (height brush) / Fin 2)%js.

(** The overlay after the brush was stamped for each point of [queue], the
    first one first. *)
Definition painted (drawImage : rasterizer) (op : composite) (brush : canvas)
    (queue : list point) (overlay : canvas) : canvas :=
  fold_left
    (fun (o : canvas) (p : point) =>
       drawImage op brush
         (px p - of_nat (width brush) / Fin 2)%js
         (py p - of_nat (height brush) / Fin 2)%js o)
    queue overlay.

(** The engine after a frame. *)
Definition drawn (drawImage : rasterizer) (overlay brush : canvas)
    (s : engine) : engine :=
  set_trace
    (trace s ++ map (stamp brush) (paintQueue s) ++ [RequestAnimationFrame])
    (set_overlayCanvas
       (Some (painted drawImage (globalCompositeOperation s) brush
                (paintQueue s) overlay))
       (set_paintQueue [] s)).

(** A brush whose image has no width. *)
Definition brush0 : canvas := {| width := 0; height := 0; data := [] |}.

(** A stroke under way with that brush: the spacing is [0 / 2]. *)
Definition stroke_thin : engine :=
  set_lastPoint (Some (at_ 0 0))
    (set_isPointerDown true
       (set_minPointDist (of_nat (width brush0) / Fin 2)%js
          (set_brushCanvas (Some brush0) (initial page0)))).

(** An overlay whose image has no width. *)
Definition overlay0 : canvas := {| width := 0; height := 5; data := [] |}.

(** The engine as [onPointerDown] leaves it when the extraction of the
    coordinates throws: the event cancelled and the stroke opened. *)
Definition opened (s : engine) : engine :=
  set_isPointerDown true (set_trace (trace s ++ [PreventDefault]) s).

(** A touch event that lists no touch on its target. *)
Definition touch_empty : event :=
  {| targetTouches := Some []; clientX := NaN; clientY := NaN;
     offset := None; originalEvent_layerX := false; touches := [] |}.

(** A wrapped event: no numeric [offsetX], but an [originalEvent] with a
    numeric [layerX]. *)
Definition wrapped0 : event :=
  {| targetTouches := None; clientX := Fin 5; clientY := Fin 5;
     offset := None; originalEvent_layerX := true; touches := [] |}.

(** ** Construction *)

Definition isString (v : jsvalue) : bool :=
  match v with JSString _ _ => true | _ => false end.

(** The two checks of [construct]: the parent is a DOM element, and the
    callback, when one is passed, is a function. *)
Definition valid (arguments : list jsvalue) : bool :=
  isDomElement (nth 0 arguments JSUndefined) &&
  (if (3 <? List.length arguments)%nat
   then isFunction (nth 3 arguments JSUndefined) else true).

(** The load that [getCanvasFromImage] starts for a URL. *)
Definition loads (imgUrl : jsvalue) : list effect :=
  match imgUrl with JSString url _ => [LoadImage url] | _ => [] end.

(** The engine as [construct] leaves it. *)
Definition constructed (arguments : list jsvalue) (pg : page) : engine :=
  let overlayUrl := nth 1 arguments JSUndefined in
  let brushUrl := nth 2 arguments JSUndefined in
  set_trace
    (loads overlayUrl ++ loads brushUrl ++
     (if isString overlayUrl || isString brushUrl then [] else [ConsoleError]))
    (set_brushLoaded (negb (isString brushUrl))
       (set_overlayLoaded (negb (isString overlayUrl))
          (set_revealThreshold (threshold_of arguments) (initial pg)))).

(** A construction whose parent is not a DOM element, and one whose overlay
    URL is not a string. *)
Definition arguments_detached : list jsvalue :=
  [JSNull; JSString "overlay.png" NaN; JSString "brush.png" NaN; JSFunction].

Definition arguments_nourl : list jsvalue :=
  [JSElement; JSUndefined; JSString "brush.png" NaN; JSFunction;
   JSNumber (Fin 50)].

(** A move of the mouse that reports the position of [down0]. *)
Definition move_same : event :=
  {| targetTouches := None; clientX := Fin 5; clientY := Fin 5;
     offset := Some (at_ 1 0); originalEvent_layerX := false; touches := [] |}.

(** A pointer-down of the mouse at the far corner of the displayed canvas of
    [resized0], 800 by 400 pixels. *)
Definition down_corner : event :=
  {| targetTouches := None; clientX := Fin 810; clientY := Fin 410;
     offset := Some (at_ 800 400); originalEvent_layerX := false;
     touches := [] |}.

(** ** The debouncer and the host *)

(** At most one timer is pending, and it is the one [timeout] names. *)
Definition single_timer {A : Type} (d : debouncer A) : Prop :=
  match timeout d with
  | None => timers d = []
  | Some id => exists args : A, timers d = [(id, args)]
  end.

(** The messages the host sends over a trace of the engine. *)
Definition sent (h : hooks hostvalue) (t : list effect) : list message :=
  flat_map (fun e => sends (callee h e)) t.

(** * Properties *)

(** ** Numbers *)

Lemma Rltb_true (a b : R) : Rltb a b = true <-> a < b.
Proof. unfold Rltb. destruct (Rlt_dec a b); split; intros; try easy. Qed.

Lemma Rltb_false (a b : R) : Rltb a b = false <-> b <= a.
Proof.
  unfold Rltb. destruct (Rlt_dec a b); split; intros; try easy; lra.
Qed.

Lemma Rleb_true (a b : R) : Rleb a b = true <-> a <= b.
Proof. unfold Rleb. destruct (Rle_dec a b); split; intros; try easy. Qed.


Lemma Reqb_true (a b : R) : Reqb a b = true <-> a = b.
Proof. unfold Reqb. destruct (Req_dec_T a b); split; intros; try easy. Qed.

Lemma Reqb_false (a b : R) : Reqb a b = false <-> a <> b.
Proof. unfold Reqb. destruct (Req_dec_T a b); split; intros; try easy. Qed.

Lemma floorZ_spec (r : R) : IZR (floorZ r) <= r < IZR (floorZ r) + 1.
Proof. unfold floorZ. destruct (base_Int_part r). lra. Qed.

Lemma floorZ_unique (r : R) (z : Z) : IZR z <= r < IZR z + 1 -> floorZ r = z.
Proof. intros H. symmetry. apply Int_part_spec. lra. Qed.

Lemma ceilZ_spec (r : R) : IZR (ceilZ r) - 1 < r <= IZR (ceilZ r).
Proof.
  unfold ceilZ. rewrite opp_IZR. destruct (base_Int_part (- r)). lra.
Qed.

Lemma ceilZ_unique (r : R) (z : Z) : IZR z - 1 < r <= IZR z -> ceilZ r = z.
Proof.
  intros H. unfold ceilZ.
  rewrite <- (Int_part_spec (- r) (- z)); [lia | rewrite opp_IZR; lra].
Qed.

Lemma ceilZ_IZR (z : Z) : ceilZ (IZR z) = z.
Proof. apply ceilZ_unique. lra. Qed.

Lemma roundZ_spec (r : R) : IZR (roundZ r) - / 2 <= r < IZR (roundZ r) + / 2.
Proof. unfold roundZ. destruct (base_Int_part (r + / 2)). lra. Qed.

Lemma roundZ_unique (r : R) (z : Z) :
  IZR z - / 2 <= r < IZR z + / 2 -> roundZ r = z.
Proof. intros H. symmetry. apply Int_part_spec. lra. Qed.

Lemma roundZ_IZR (z : Z) : roundZ (IZR z) = z.
Proof. apply roundZ_unique. lra. Qed.

Lemma lt_of_Z (a b : Z) : (of_Z a <? of_Z b)%js = (a <? b)%Z.
Proof.
  unfold of_Z, lt. destruct (Z.ltb_spec a b) as [H | H].
  - apply Rltb_true, IZR_lt, H.
  - apply Rltb_false, IZR_le, H.
Qed.

Lemma add_of_Z (a b : Z) : (of_Z a + of_Z b)%js = of_Z (a + b).
Proof. unfold of_Z, add. now rewrite plus_IZR. Qed.

(** ** Assignments *)

Lemma set_paintQueue_same (s : engine) : set_paintQueue (paintQueue s) s = s.
Proof. now destruct s. Qed.

Lemma set_paintQueue_twice (q q' : list point) (s : engine) :
  set_paintQueue q' (set_paintQueue q s) = set_paintQueue q' s.
Proof. reflexivity. Qed.

(** ** Stroke interpolator *)


Lemma Zrange_In (start : Z) (count : nat) (i : Z) :
  In i (Zrange start count) <-> (start <= i < start + Z.of_nat count)%Z.
Proof.
  revert start. induction count as [| c IH]; intros start; simpl.
  - lia.
  - rewrite IH. lia.
Qed.

Lemma tween_loop_unfold (fuel : nat) (i n : number) (p : point)
    (dx dy : number) :
  tween_loop fuel i n p dx dy =
  if (i <? n)%js then
    match fuel with
    | O => fun _ => Diverge
    | S fuel' =>
        push {| px := Math.round (px p + i * dx)%js;
                py := Math.round (py p + i * dy)%js |} ;;
        tween_loop fuel' (i + Fin 1)%js n p dx dy
    end
  else ret tt.
Proof. destruct fuel; reflexivity. Qed.

(** A finite bound [n]: the loop returns, having pushed one point for each
    [i] with [k <= i < n], in increasing order of [i]. *)
Lemma tween_loop_finite (fuel : nat) :
  forall (k n : Z) (p : point) (dx dy : number) (s : engine),
    (Z.to_nat (n - k) <= fuel)%nat ->
    tween_loop fuel (of_Z k) (of_Z n) p dx dy s =
    Return tt
      (set_paintQueue
         (paintQueue s ++
          map (intermediate p dx dy) (Zrange k (Z.to_nat (n - k))))
         s).
Proof.
  induction fuel as [| fuel IH]; intros k n p dx dy s Hfuel;
    rewrite tween_loop_unfold, lt_of_Z;
    destruct (Z.ltb_spec k n) as [Hlt | Hge]; try lia.
  - replace (Z.to_nat (n - k)) with O by lia. simpl.
    unfold ret. now rewrite app_nil_r, set_paintQueue_same.
  - unfold bind, push, assign. fold (of_Z 1). rewrite add_of_Z.
    rewrite IH by lia. cbn [paintQueue set_paintQueue].
    replace (Z.to_nat (n - k)) with (S (Z.to_nat (n - (k + 1)))) by lia.
    cbn [Zrange map]. now rewrite <- app_assoc.
  - replace (Z.to_nat (n - k)) with O by lia. simpl.
    unfold ret. now rewrite app_nil_r, set_paintQueue_same.
Qed.

(** An infinite bound: the loop never returns, whatever the fuel. *)
Lemma tween_loop_infinite (fuel : nat) :
  forall (k : Z) (p : point) (dx dy : number) (s : engine),
    tween_loop fuel (of_Z k) PosInfinity p dx dy s = Diverge.
Proof.
  induction fuel as [| fuel IH]; intros k p dx dy s;
    rewrite tween_loop_unfold; cbn [lt of_Z].
  - reflexivity.
  - unfold bind, push, assign. fold (of_Z 1). fold (of_Z k).
    rewrite add_of_Z. apply IH.
Qed.

Lemma addPoint_untweened (fuel : nat) (p : point) (tween : bool) (s : engine) :
  tween = false \/ lastPoint s = None \/
  (exists last, lastPoint s = Some last /\
                (distance last p >? minPointDist s)%js = false) ->
  addPoint fuel p tween s = Return tt (added [] p s).
Proof.
  intros H. unfold addPoint, bind, get.
  destruct tween; [| reflexivity].
  destruct H as [H | [H | (last & H & Hd)]]; [discriminate | |];
    rewrite H; [reflexivity |].
  unfold distance in Hd. cbv zeta. rewrite Hd. reflexivity.
Qed.

Lemma addPoint_tweened (fuel : nat) (p last : point) (n : Z) (s : engine) :
  lastPoint s = Some last ->
  (distance last p >? minPointDist s)%js = true ->
  Math.ceil (distance last p / minPointDist s)%js = of_Z n ->
  (Z.to_nat (n - 1) <= fuel)%nat ->
  addPoint fuel p true s =
  Return tt
    (added (map (intermediate p ((px last - px p) / of_Z n)%js
                                ((py last - py p) / of_Z n)%js)
                (Zrange 1 (Z.to_nat (n - 1)))) p s).
Proof.
  intros Hlast Hd Hn Hfuel. unfold addPoint, bind, get.
  rewrite Hlast. unfold distance in Hd, Hn. cbv zeta. rewrite Hd, Hn.
  fold (of_Z 1). rewrite tween_loop_finite by exact Hfuel.
  cbv [assign push added]. cbn [paintQueue set_paintQueue set_lastPoint].
  now rewrite <- app_assoc.
Qed.

Lemma addPoint_diverges (fuel : nat) (p last : point) (s : engine) :
  lastPoint s = Some last ->
  (distance last p >? minPointDist s)%js = true ->
  Math.ceil (distance last p / minPointDist s)%js = PosInfinity ->
  addPoint fuel p true s = Diverge.
Proof.
  intros Hlast Hd Hn. unfold addPoint, bind, get.
  rewrite Hlast. unfold distance in Hd, Hn. cbv zeta. rewrite Hd, Hn.
  fold (of_Z 1). now rewrite tween_loop_infinite.
Qed.

(** *** Finite coordinates *)

Lemma distance_finite (lx ly x y : R) :
  distance (at_ lx ly) (at_ x y) = Fin (euclid lx ly x y).
Proof.
  unfold distance, at_, euclid. cbn [px py sub neg add mul Math.sqrt].
  assert (H : Rltb ((lx + - x) * (lx + - x) + (ly + - y) * (ly + - y)) 0 = false)
    by (apply Rltb_false, Rplus_le_le_0_compat; apply Rle_0_sqr).
  rewrite H. reflexivity.
Qed.

Lemma div_finite (a b : R) : b <> 0 -> (Fin a / Fin b)%js = Fin (a / b).
Proof. intros H. unfold div. apply Reqb_false in H. now rewrite H. Qed.

Lemma half_width (w : nat) : (of_nat w / Fin 2)%js = Fin (INR w / 2).
Proof. apply div_finite. lra. Qed.

Lemma intermediate_finite (lx ly x y : R) (n i : Z) :
  n <> 0%Z ->
  intermediate (at_ x y) ((Fin lx - Fin x) / of_Z n)%js
    ((Fin ly - Fin y) / of_Z n)%js i =
  {| px := of_Z (roundZ (x + IZR i / IZR n * (lx - x)));
     py := of_Z (roundZ (y + IZR i / IZR n * (ly - y))) |}.
Proof.
  intros Hn. assert (Hn' : IZR n <> 0) by (now apply not_0_IZR).
  unfold intermediate, at_, of_Z. cbn [px py sub neg add].
  rewrite !div_finite by exact Hn'. cbn [mul add Math.round].
  assert (E : forall a b : R,
             IZR i * ((b + - a) / IZR n) = IZR i / IZR n * (b - a))
    by (intros a b; field; exact Hn').
  now rewrite !E.
Qed.

(** More than one segment is needed whenever the distance exceeds the
    spacing. *)
Lemma numSegments_ge_2 (d m : R) : 0 < m -> m < d -> (2 <= ceilZ (d / m))%Z.
Proof.
  intros Hm Hd. destruct (ceilZ_spec (d / m)) as [_ H].
  assert (H1 : 1 < d / m).
  { apply (Rmult_lt_reg_r m); [exact Hm |]. field_simplify; lra. }
  assert (H2 : (1 < ceilZ (d / m))%Z) by (apply lt_IZR; lra).
  lia.
Qed.

Lemma addPoint_interpolates (fuel : nat) (s : engine) (lx ly x y m : R) :
  lastPoint s = Some (at_ lx ly) ->
  minPointDist s = Fin m ->
  0 < m ->
  m < euclid lx ly x y ->
  (Z.to_nat (ceilZ (euclid lx ly x y / m) - 1) <= fuel)%nat ->
  addPoint fuel (at_ x y) true s =
  Return tt
    (added (tween_points lx ly x y (ceilZ (euclid lx ly x y / m)))
       (at_ x y) s).
Proof.
  intros Hlast Hmin Hm Hd Hfuel.
  pose proof (numSegments_ge_2 _ _ Hm Hd) as Hn.
  rewrite (addPoint_tweened fuel (at_ x y) (at_ lx ly)
             (ceilZ (euclid lx ly x y / m)) s Hlast); try exact Hfuel.
  - unfold tween_points. f_equal. f_equal. apply map_ext. intros i.
    apply intermediate_finite. lia.
  - rewrite distance_finite, Hmin. now apply Rltb_true.
  - rewrite distance_finite, Hmin, div_finite by lra. reflexivity.
Qed.





(** *** A stroke of 30 pixels with a brush 20 pixels wide *)

Lemma euclid_horizontal (lx x y : R) : x <= lx -> euclid lx y x y = lx - x.
Proof.
  intros H. unfold euclid.
  replace ((lx - x) * (lx - x) + (y - y) * (y - y)) with (Rsqr (lx - x))
    by (unfold Rsqr; ring).
  apply sqrt_Rsqr. lra.
Qed.

Lemma euclid_sym (lx ly x y : R) : euclid lx ly x y = euclid x y lx ly.
Proof. unfold euclid. f_equal. ring. Qed.

Lemma INR_20 : INR 20 = 20.
Proof. change 20 with (IZR (Z.of_nat 20)). apply INR_IZR_INZ. Qed.

Lemma stroke0_distance : euclid 0 0 30 0 = 30.
Proof. rewrite euclid_sym, euclid_horizontal; lra. Qed.




(** *** Where the intermediate points lie *)



Lemma stroke0_minPointDist : minPointDist stroke0 = Fin 10.
Proof.
  cbn [stroke0 minPointDist set_lastPoint set_isPointerDown set_minPointDist].
  rewrite half_width, INR_20. f_equal. lra.
Qed.



(** ** Framing: what a handler leaves related

    For a preorder [R], [respects R] follows the structure of the handler. *)

Section Frame.

Variable R : engine -> engine -> Prop.
Hypothesis R_refl : forall s, R s s.
Hypothesis R_trans : forall s1 s2 s3, R s1 s2 -> R s2 s3 -> R s1 s3.

Lemma respects_ret {A : Type} (a : A) : respects R (ret a).
Proof. intros s s' H. injection H as <-. apply R_refl. Qed.

Lemma respects_throw {A : Type} : respects R (@throw A).
Proof. intros s s' H. injection H as <-. apply R_refl. Qed.

Lemma respects_get {A : Type} (f : engine -> A) : respects R (get f).
Proof. intros s s' H. injection H as <-. apply R_refl. Qed.

Lemma respects_diverge {A : Type} : respects R (fun _ => @Diverge A).
Proof. intros s s' H. discriminate. Qed.

Lemma respects_assign (f : engine -> engine) :
  (forall s, R s (f s)) -> respects R (assign f).
Proof. intros Hf s s' H. injection H as <-. apply Hf. Qed.

Lemma respects_bind {A B : Type} (m : M A) (k : A -> M B) :
  respects R m -> (forall a, respects R (k a)) -> respects R (bind m k).
Proof.
  intros Hm Hk s s' H. unfold bind in H.
  destruct (m s) as [a s1 | s1 |] eqn:E; [| | discriminate].
  - apply (R_trans s s1 s'); [apply Hm; now rewrite E | now apply (Hk a)].
  - apply Hm. now rewrite E.
Qed.

End Frame.

(** Structural steps of a framing proof: [known] closes the calls of
    handlers already framed, [leaf] the assignments. *)
Ltac frame_with Hrefl Htrans known leaf :=
  repeat first
    [ solve [known]
    | apply (respects_ret _ Hrefl)
    | apply (respects_throw _ Hrefl)
    | apply (respects_get _ Hrefl)
    | apply respects_diverge
    | apply (respects_bind _ Htrans); [| intros ?]
    | apply respects_assign; intros ?; leaf
    | match goal with
      | |- respects _ (if ?b then _ else _) => destruct b
      | |- respects _ (match ?x with _ => _ end) => destruct x
      end ].

(** ** Reveal detector: the completion callback *)

Lemma once_refl (s : engine) : once s s.
Proof. split; [lia | auto]. Qed.

Lemma once_trans (s1 s2 s3 : engine) : once s1 s2 -> once s2 s3 -> once s1 s3.
Proof. intros [H1 H1'] [H2 H2']. split; [lia | auto]. Qed.

Lemma reveals_app (t u : list effect) :
  reveals (t ++ u) = (reveals t + reveals u)%nat.
Proof. unfold reveals. now rewrite filter_app, length_app. Qed.

Ltac once_leaf :=
  unfold once; cbn -[reveals]; rewrite ?reveals_app; cbn; split; [lia | auto].

Create HintDb once_db.

Ltac once_frame :=
  frame_with once_refl once_trans ltac:(auto 1 with once_db nocore) once_leaf.

(** A call made after the flag went up returns at once: no pixel is read,
    no callback is called, nothing changes. *)
Lemma testRevealed_revealed (s : engine) (overlay : canvas) :
  overlayCanvas s = Some overlay ->
  isRevealed s = true ->
  testRevealed s = Return tt s.
Proof.
  intros Ho Hr. unfold testRevealed, bind, get. now rewrite Ho, Hr.
Qed.

Lemma testRevealed_once : respects once testRevealed.
Proof.
  intros s s' H. unfold testRevealed, bind, get in H.
  destruct (overlayCanvas s) as [overlay |]; [| injection H as <-; apply once_refl].
  destruct (isRevealed s) eqn:Hr; [injection H as <-; apply once_refl |].
  unfold getImageData in H.
  destruct (width overlay), (height overlay);
    try (injection H as <-; apply once_refl).
  cbv [bind emit assign ret] in H.
  cbn [revealThreshold set_trace] in H.
  match type of H with
  | final ((if ?c then _ else _) _) = _ => destruct c
  end; injection H as <-; unfold once;
    cbn [trace set_trace isRevealed set_isRevealed]; rewrite ?reveals_app, Hr;
    cbn; (split; [lia | auto]).
Qed.

Lemma tween_loop_once (fuel : nat) :
  forall (i n : number) (p : point) (dx dy : number),
    respects once (tween_loop fuel i n p dx dy).
Proof.
  induction fuel as [| fuel IH]; intros i n p dx dy;
    rewrite tween_loop_unfold; unfold push; once_frame.
Qed.
#[local] Hint Resolve tween_loop_once : once_db.

Lemma addPoint_once (fuel : nat) (p : point) (tween : bool) :
  respects once (addPoint fuel p tween).
Proof. unfold addPoint, push. once_frame. Qed.
#[local] Hint Resolve addPoint_once : once_db.

Lemma getPointFromEvent_once (ev : event) :
  respects once (getPointFromEvent ev).
Proof. unfold getPointFromEvent. once_frame. Qed.
#[local] Hint Resolve getPointFromEvent_once : once_db.

Lemma getOffsetPointFromEvent_once (ev : event) :
  respects once (getOffsetPointFromEvent ev).
Proof. unfold getOffsetPointFromEvent. once_frame. Qed.
#[local] Hint Resolve getOffsetPointFromEvent_once testRevealed_once : once_db.

Lemma onPointerDown_once (fuel : nat) (ev : event) :
  respects once (onPointerDown fuel ev).
Proof. unfold onPointerDown, cancelEvent, emit. once_frame. Qed.

Lemma onPointerMove_once (fuel : nat) (ev : event) :
  respects once (onPointerMove fuel ev).
Proof. unfold onPointerMove, cancelEvent, emit. once_frame. Qed.

Lemma onPointerUp_once (ev : event) : respects once (onPointerUp ev).
Proof. unfold onPointerUp, cancelEvent, emit. once_frame. Qed.

Lemma onResize_once : respects once onResize.
Proof. unfold onResize. once_frame. Qed.
#[local] Hint Resolve onResize_once : once_db.

Lemma drain_once (drawImage : rasterizer) (queue : list point) :
  respects once (drain drawImage queue).
Proof.
  induction queue as [| p rest IH]; cbn [drain]; unfold emit; once_frame.
Qed.
#[local] Hint Resolve drain_once : once_db.

Lemma draw_once (drawImage : rasterizer) : respects once (draw drawImage).
Proof. unfold draw, emit. once_frame. Qed.

Lemma onCanvasLoaded_once : respects once onCanvasLoaded.
Proof. unfold onCanvasLoaded, addEventListeners, emit. once_frame. Qed.
#[local] Hint Resolve onCanvasLoaded_once : once_db.

Lemma dispatch_once (drawImage : rasterizer) (fuel : nat) (cb : callback) :
  respects once (dispatch drawImage fuel cb).
Proof.
  destruct cb; cbn [dispatch].
  - unfold overlaySettled. once_frame.
  - unfold brushSettled. once_frame.
  - apply onPointerDown_once.
  - apply onPointerMove_once.
  - apply onPointerUp_once.
  - once_frame.
  - apply onResize_once.
  - apply draw_once.
Qed.

Lemma steps_once (drawImage : rasterizer) (s s' : engine) :
  steps drawImage s s' -> once s s'.
Proof.
  induction 1 as [| s' s'' _ IH [fuel cb Hcb]].
  - apply once_refl.
  - apply (once_trans _ _ _ IH). now apply (dispatch_once drawImage fuel cb).
Qed.

(** ** Reveal detector: what a first call computes *)

Lemma visiblePixels_cons (r g b a : Z) (rest : list Z) (total : nat) :
  List.length (visiblePixels (r :: g :: b :: a :: rest) (S total)) =
  ((if (a <=? alphaThreshold)%Z then 1 else 0) +
   List.length (visiblePixels rest total))%nat.
Proof.
  unfold visiblePixels. rewrite <- cons_seq, <- seq_shift. cbn [filter].
  assert (E : List.length (filter (isVisible (r :: g :: b :: a :: rest))
                             (map S (seq 0 total))) =
              List.length (filter (isVisible rest) (seq 0 total))).
  { induction (seq 0 total) as [| k l IH]; [reflexivity |].
    cbn [map filter].
    replace (isVisible (r :: g :: b :: a :: rest) (S k)) with (isVisible rest k).
    - destruct (isVisible rest k); cbn [List.length]; now rewrite IH.
    - unfold isVisible, alphaAt.
      replace (4 * S k + 3)%nat with (S (S (S (S (4 * k + 3))))) by lia.
      reflexivity. }
  unfold isVisible at 1, alphaAt. cbn [Nat.mul Nat.add nth].
  destruct (a <=? alphaThreshold)%Z; cbn [List.length]; now rewrite E.
Qed.

(** The loop of [testRevealed] counts exactly the pixels whose alpha is at
    most 128. *)
Lemma countVisible_spec (total : nat) :
  forall pixels : list Z,
    List.length pixels = (4 * total)%nat ->
    countVisible pixels = List.length (visiblePixels pixels total).
Proof.
  induction total as [| total IH]; intros pixels Hlen.
  - destruct pixels; [reflexivity | simpl in Hlen; lia].
  - destruct pixels as [| r [| g [| b [| a rest]]]]; simpl in Hlen; try lia.
    rewrite visiblePixels_cons. cbn [countVisible].
    rewrite (IH rest) by lia. reflexivity.
Qed.

Lemma visiblePixels_le (pixels : list Z) (total : nat) :
  (List.length (visiblePixels pixels total) <= total)%nat.
Proof.
  pose proof (filter_length_le (isVisible pixels) (seq 0 total)) as H.
  now rewrite length_seq in H.
Qed.



Lemma testRevealed_unrevealed (s : engine) (overlay : canvas) :
  overlayCanvas s = Some overlay ->
  isRevealed s = false ->
  (0 < width overlay)%nat ->
  (0 < height overlay)%nat ->
  testRevealed s =
  Return tt
    (if (revealedPercent (countVisible (data overlay))
           (of_nat (width overlay) * of_nat (height overlay)) >=?
         revealThreshold s)%js
     then fired s else unfired s).
Proof.
  intros Ho Hr Hw Hh. unfold testRevealed, bind, get, getImageData.
  rewrite Ho, Hr.
  destruct (width overlay) as [| w] eqn:Ew; [lia |].
  destruct (height overlay) as [| h] eqn:Eh; [lia |].
  cbv [bind emit assign ret]. cbn [revealThreshold set_trace].
  match goal with
  | |- (if ?c then _ else _) _ = _ => destruct c
  end; [| reflexivity].
  unfold fired. cbn [trace set_trace]. now rewrite <- app_assoc.
Qed.

Lemma revealedPercent_finite (numVisible w h : nat) :
  (0 < w)%nat -> (0 < h)%nat ->
  revealedPercent numVisible (of_nat w * of_nat h)%js =
  Fin (INR numVisible / INR (w * h) * 100).
Proof.
  intros Hw Hh. unfold revealedPercent, of_nat. cbn [mul].
  apply lt_INR in Hw, Hh. cbn [INR] in Hw, Hh.
  rewrite div_finite by nra. cbn [mul]. now rewrite mult_INR.
Qed.

Lemma percent_nonneg (numVisible total : nat) :
  (0 < total)%nat -> 0 <= INR numVisible / INR total * 100.
Proof.
  intros Ht. apply lt_INR in Ht. cbn [INR] in Ht.
  pose proof (pos_INR numVisible) as Hn.
  apply Rmult_le_pos; [| lra].
  apply Rmult_le_pos; [exact Hn |]. apply Rlt_le, Rinv_0_lt_compat, Ht.
Qed.


(** ** Pointer release *)

Lemma onPointerUp_idle (ev : event) (s : engine) :
  isPointerDown s = false -> onPointerUp ev s = Return tt s.
Proof. intros H. unfold onPointerUp, bind, get. now rewrite H. Qed.

Lemma onPointerUp_stroking (ev : event) (s : engine) :
  isPointerDown s = true -> onPointerUp ev s = testRevealed (released s).
Proof. intros H. unfold onPointerUp, bind, get. now rewrite H. Qed.



(** *** A two-pixel overlay *)

Lemma overlay2_well_formed : well_formed overlay2.
Proof. unfold well_formed. simpl. lia. Qed.


Lemma construct_once (arguments : list jsvalue) :
  respects once (construct arguments).
Proof.
  unfold construct, getCanvasFromImage, overlaySettled, brushSettled, emit.
  once_frame.
Qed.

(** C2: over the whole life of an engine, from its construction on and
    whatever callbacks the browser delivers, the completion callback is
    called at most once; once the flag is up it stays up and no further
    callback is called; and a call of [testRevealed] made with the flag up
    returns the state unchanged, so it neither reads the pixels nor calls
    the callback. *)
Theorem revealCallback_at_most_once :
  (forall (drawImage : rasterizer) (pg : page) (arguments : list jsvalue)
          (s0 s : engine),
      final (construct arguments (initial pg)) = Some s0 ->
      steps drawImage s0 s ->
      (reveals (trace s) <= 1)%nat /\
      (reveals (trace s) = 1%nat <-> isRevealed s = true)) /\
  (forall (drawImage : rasterizer) (s s' : engine),
      steps drawImage s s' ->
      isRevealed s = true ->
      isRevealed s' = true /\ reveals (trace s') = reveals (trace s)) /\
  (forall (s s' : engine),
      final (testRevealed s) = Some s' ->
      (isRevealed s = true -> s' = s) /\
      (isRevealed s = false ->
       reveals (trace s') = (reveals (trace s) + Nat.b2n (isRevealed s'))%nat)) /\
  (forall (s : engine) (overlay : canvas),
      overlayCanvas s = Some overlay ->
      isRevealed s = true ->
      testRevealed s = Return tt s).
Proof.
  split; [| split; [| split]].
  - intros drawImage pg arguments s0 s Hc Hs.
    apply construct_once in Hc. apply steps_once in Hs.
    destruct (once_trans _ _ _ Hc Hs) as [H _].
    cbn [initial trace isRevealed reveals filter List.length Nat.b2n] in H.
    destruct (isRevealed s); cbn [Nat.b2n] in H; split; try lia;
      split; intros; (lia || congruence).
  - intros drawImage s s' Hs Hr. apply steps_once in Hs.
    destruct Hs as [H H']. pose proof (H' Hr) as Hr'.
    rewrite Hr, Hr' in H. cbn in H.
    split; [auto | lia].
  - intros s s' H. split.
    + intros Hr. destruct (overlayCanvas s) as [overlay |] eqn:Ho.
      * rewrite (testRevealed_revealed s overlay Ho Hr) in H.
        cbn in H. congruence.
      * unfold testRevealed, bind, get in H. rewrite Ho in H.
        cbn in H. congruence.
    + intros Hr. apply testRevealed_once in H. destruct H as [H _].
      rewrite Hr in H. cbn in H. lia.
  - apply testRevealed_revealed.
Qed.

(** ** Runs *)

Lemma steps_trans (drawImage : rasterizer) (s1 s2 s3 : engine) :
  steps drawImage s1 s2 -> steps drawImage s2 s3 -> steps drawImage s1 s3.
Proof.
  intros H12 H23. induction H23 as [| s3 s4 _ IH Hstep]; [exact H12 |].
  now apply (steps_step _ _ s3).
Qed.

Lemma run_steps (drawImage : rasterizer) (fuel : nat) (cbs : list callback) :
  forall s s' : engine,
    run drawImage fuel cbs s = Some s' -> steps drawImage s s'.
Proof.
  induction cbs as [| cb rest IH]; intros s s' H; cbn [run] in H.
  - injection H as <-. apply steps_refl.
  - destruct (final (dispatch drawImage fuel cb s)) as [s1 |] eqn:E;
      [| discriminate].
    apply (steps_trans _ s s1 s'); [| now apply IH].
    apply (steps_step _ _ s); [apply steps_refl |].
    now apply (step_intro _ _ _ fuel cb).
Qed.

(** *** One engine, from its construction to a first pointer event *)

(** Evaluation of a run up to the arithmetic, which stays symbolic. *)
Ltac simulate :=
  cbv -[JS.add JS.sub JS.mul JS.div JS.neg JS.lt JS.le JS.gt JS.ge
        Math.sqrt Math.ceil Math.round Math.min Math.max of_nat of_Z
        brush20 overlay2 width height data IZR INR Rplus Rmult Rminus Rdiv
        Ropp Rinv reveals].

(** The same on a state whose trace is a variable: appends are kept. *)
Ltac simulate_open :=
  cbv -[JS.add JS.sub JS.mul JS.div JS.neg JS.lt JS.le JS.gt JS.ge
        Math.sqrt Math.ceil Math.round Math.min Math.max of_nat of_Z
        brush20 overlay2 width height data IZR INR Rplus Rmult Rminus Rdiv
        Ropp Rinv reveals app];
  rewrite <- ?app_assoc; cbn [app].

Lemma revealCallback_at_most_once_witness :
  exists s0 s : engine,
    final (construct arguments0 (initial page0)) = Some s0 /\
    run drawImage_ref 0 lifetime0 s0 = Some s /\
    (reveals (trace s) <= 1)%nat.
Proof.
  eexists. eexists. split; [simulate; reflexivity |].
  split; [simulate; reflexivity |].
  destruct revealCallback_at_most_once as (H & _).
  eapply (H drawImage_ref page0 arguments0).
  - simulate. reflexivity.
  - apply (run_steps drawImage_ref 0 lifetime0). simulate. reflexivity.
Defined.

(** ** Input state machine *)

Lemma testRevealed_outcomes (s s' : engine) :
  final (testRevealed s) = Some s' ->
  s' = s \/ s' = unfired s \/ s' = fired s.
Proof.
  intros H. unfold testRevealed, bind, get in H.
  destruct (overlayCanvas s) as [overlay |]; [| injection H as <-; auto].
  destruct (isRevealed s) eqn:Hr; [injection H as <-; auto |].
  unfold getImageData in H.
  destruct (width overlay), (height overlay); try (injection H as <-; auto).
  cbv [bind emit assign ret] in H. cbn [revealThreshold set_trace] in H.
  match type of H with
  | final ((if ?c then _ else _) _) = _ => destruct c
  end; injection H as <-; [right; right | right; left; reflexivity].
  unfold fired. cbn [trace set_trace]. now rewrite <- app_assoc.
Qed.

(** C7: a pointer-up that arrives while no stroke is active changes
    nothing.  One that arrives during a stroke cancels the event, closes
    the stroke, forgets the last point, calls the stroke-end hook and then
    runs the reveal detector once: the handler ends as that one call ends,
    started in the state [released s]; all it adds to the trace after the
    hook is nothing, one pixel read, or one pixel read followed by the
    completion callback. *)
Theorem onPointerUp_release :
  (forall (ev : event) (s : engine),
      isPointerDown s = false -> onPointerUp ev s = Return tt s) /\
  (forall (ev : event) (s : engine),
      isPointerDown s = true ->
      onPointerUp ev s = testRevealed (released s) /\
      trace (released s) = trace s ++ [PreventDefault; UpCallback] /\
      forall s' : engine,
        final (onPointerUp ev s) = Some s' ->
        isPointerDown s' = false /\
        lastPoint s' = None /\
        exists rest : list effect,
          trace s' = trace s ++ [PreventDefault; UpCallback] ++ rest /\
          (rest = [] \/ rest = [GetImageData] \/
           rest = [GetImageData; RevealCallback])).
Proof.
  split; [exact onPointerUp_idle |].
  intros ev s Hdown.
  assert (Ht : trace (released s) = trace s ++ [PreventDefault; UpCallback]).
  { unfold released.
    cbn [trace set_trace set_offsetOrigin set_pointerOrigin set_lastPoint
         set_isPointerDown].
    now rewrite <- app_assoc. }
  split; [now apply onPointerUp_stroking | split; [exact Ht |]].
  intros s' H. rewrite onPointerUp_stroking in H by exact Hdown.
  apply testRevealed_outcomes in H.
  destruct H as [-> | [-> | ->]]; (split; [reflexivity | split; [reflexivity |]]).
  - exists []. rewrite Ht. auto.
  - exists [GetImageData]. unfold unfired. cbn [trace set_trace].
    rewrite Ht, <- app_assoc. auto.
  - exists [GetImageData; RevealCallback]. unfold fired.
    cbn [trace set_trace set_isRevealed]. rewrite Ht, <- app_assoc. auto.
Qed.

Lemma onPointerUp_release_witness :
  onPointerUp up0 (initial page0) = Return tt (initial page0) /\
  onPointerUp up0 stroke0 = testRevealed (released stroke0).
Proof.
  split.
  - apply (proj1 onPointerUp_release up0 (initial page0)). reflexivity.
  - apply (proj2 onPointerUp_release up0 stroke0). reflexivity.
Defined.

Lemma getPointFromEvent_pointOf (ev : event) (s : engine) :
  getPointFromEvent ev s =
  match pointOf ev with Some p => Return p s | None => Throw s end.
Proof.
  unfold getPointFromEvent, pointOf.
  destruct (targetTouches ev) as [[| t l] |]; reflexivity.
Qed.

Lemma getOffsetPointFromEvent_offsetPointOf (ev : event) (s : engine) :
  getOffsetPointFromEvent ev s =
  match offsetPointOf (layout s) ev with
  | Some p => Return p s
  | None => Throw s
  end.
Proof.
  unfold getOffsetPointFromEvent, offsetPointOf.
  destruct (offset ev); [reflexivity |].
  destruct (originalEvent_layerX ev); [reflexivity |].
  unfold bind, get. destruct (touches ev); reflexivity.
Qed.

Lemma onPointerDown_pressed (fuel : nat) (ev : event) (s : engine) (p o : point) :
  pointOf ev = Some p ->
  offsetPointOf (layout s) ev = Some o ->
  onPointerDown fuel ev s = Return tt (pressed p o s).
Proof.
  intros Hp Ho. unfold onPointerDown, cancelEvent, bind at 1 2.
  cbv [emit assign]. unfold bind at 1.
  rewrite getPointFromEvent_pointOf, Hp. unfold bind at 1. cbv [assign].
  unfold bind at 1. rewrite getOffsetPointFromEvent_offsetPointOf.
  cbn [layout set_pointerOrigin set_isPointerDown set_trace]. rewrite Ho.
  cbv [bind assign get].
  rewrite addPoint_untweened by (left; reflexivity).
  cbv [emit assign added pressed rounded].
  cbn [trace paintQueue scale offsetOrigin set_trace set_paintQueue
       set_lastPoint set_offsetOrigin set_pointerOrigin set_isPointerDown
       px py app].
  now rewrite <- app_assoc.
Qed.

(** C10: [onPointerDown] does not look at [isPointerDown].  A pointer-down
    that arrives during a stroke is handled like any other: the event is
    cancelled, both origins are re-anchored to the new event, a single point
    is queued (no interpolation from the last point of the stroke under
    way), and the stroke-start hook is called again; neither the stroke-end
    hook nor the reveal detector runs. *)
Theorem onPointerDown_while_stroking :
  forall (fuel : nat) (ev : event) (s : engine) (p o : point),
    isPointerDown s = true ->
    pointOf ev = Some p ->
    offsetPointOf (layout s) ev = Some o ->
    let first :=
      rounded {| px := (px o * scale s)%js; py := (py o * scale s)%js |} in
    exists s' : engine,
      onPointerDown fuel ev s = Return tt s' /\
      isPointerDown s' = true /\
      pointerOrigin s' = p /\
      offsetOrigin s' = o /\
      paintQueue s' = paintQueue s ++ [first] /\
      lastPoint s' = Some first /\
      trace s' = trace s ++ [PreventDefault; DownCallback] /\
      isRevealed s' = isRevealed s /\
      overlayCanvas s' = overlayCanvas s.
Proof.
  intros fuel ev s p o _ Hp Ho first. exists (pressed p o s).
  split; [apply onPointerDown_pressed; assumption |]. repeat split.
Qed.

Lemma onPointerDown_while_stroking_witness :
  exists s' : engine,
    onPointerDown 0 down0 stroke0 = Return tt s' /\
    isPointerDown s' = true /\
    pointerOrigin s' = at_ 5 5 /\
    offsetOrigin s' = at_ 1 0 /\
    paintQueue s' =
    paintQueue stroke0 ++
    [rounded {| px := (Fin 1 * scale stroke0)%js;
                py := (Fin 0 * scale stroke0)%js |}] /\
    lastPoint s' =
    Some (rounded {| px := (Fin 1 * scale stroke0)%js;
                     py := (Fin 0 * scale stroke0)%js |}) /\
    trace s' = trace stroke0 ++ [PreventDefault; DownCallback] /\
    isRevealed s' = isRevealed stroke0 /\
    overlayCanvas s' = overlayCanvas stroke0.
Proof.
  apply (onPointerDown_while_stroking 0 down0 stroke0 (at_ 5 5) (at_ 1 0));
    reflexivity.
Defined.

(** ** Viewport transform *)

(** C4: [onResize] stores [1 / (w / W)], for [w] the rendered width of the
    parent element and [W] the width of the overlay canvas; for [w = 800]
    and [W = 200] that is [0.25]. *)
Theorem onResize_scale :
  (forall (s : engine) (overlay : canvas),
      overlayCanvas s = Some overlay ->
      onResize s =
      Return tt
        (set_scale
           (Fin 1 / (parentWidth (layout s) / of_nat (width overlay)))%js s)) /\
  (forall (s : engine) (overlay : canvas) (w : R),
      overlayCanvas s = Some overlay ->
      parentWidth (layout s) = Fin w ->
      w <> 0 ->
      width overlay <> O ->
      exists s' : engine,
        onResize s = Return tt s' /\
        scale s' = Fin (1 / (w / INR (width overlay)))) /\
  (forall (s : engine) (overlay : canvas),
      overlayCanvas s = Some overlay ->
      parentWidth (layout s) = Fin 800 ->
      width overlay = 200%nat ->
      exists s' : engine,
        onResize s = Return tt s' /\ scale s' = Fin (25 / 100)).
Proof.
  assert (H1 : forall (s : engine) (overlay : canvas),
             overlayCanvas s = Some overlay ->
             onResize s =
             Return tt
               (set_scale
                  (Fin 1 / (parentWidth (layout s) / of_nat (width overlay)))%js
                  s)).
  { intros s overlay Ho. unfold onResize, bind, get. now rewrite Ho. }
  assert (H2 : forall (s : engine) (overlay : canvas) (w : R),
             overlayCanvas s = Some overlay ->
             parentWidth (layout s) = Fin w ->
             w <> 0 ->
             width overlay <> O ->
             exists s' : engine,
               onResize s = Return tt s' /\
               scale s' = Fin (1 / (w / INR (width overlay)))).
  { intros s overlay w Ho Hw Hw0 HW. eexists. split; [exact (H1 s overlay Ho) |].
    cbn [scale set_scale]. rewrite Hw. unfold of_nat.
    assert (HW' : INR (width overlay) <> 0) by (now apply not_0_INR).
    rewrite div_finite by exact HW'.
    rewrite div_finite; [reflexivity |].
    unfold Rdiv. apply Rmult_integral_contrapositive_currified;
      [exact Hw0 | now apply Rinv_neq_0_compat]. }
  split; [exact H1 | split; [exact H2 |]].
  intros s overlay Ho Hw HW.
  destruct (H2 s overlay 800 Ho Hw) as (s' & Hs & Hscale);
    [lra | rewrite HW; discriminate |].
  exists s'. split; [exact Hs |]. rewrite Hscale, HW. f_equal.
  replace (INR 200) with 200 by (change 200 with (IZR (Z.of_nat 200));
                                  symmetry; apply INR_IZR_INZ).
  lra.
Qed.

(** *** The container resized to 800 pixels over a canvas 200 pixels wide *)

Lemma onResize_scale_witness :
  onResize resized0 =
  Return tt (set_scale (Fin 1 / (Fin 800 / of_nat 200))%js resized0) /\
  (exists s' : engine,
      onResize resized0 = Return tt s' /\
      scale s' = Fin (1 / (800 / INR 200))) /\
  (exists s' : engine,
      onResize resized0 = Return tt s' /\ scale s' = Fin (25 / 100)).
Proof.
  destruct onResize_scale as (H1 & H2 & H3). split; [| split].
  - apply (H1 resized0 overlay200). reflexivity.
  - apply (H2 resized0 overlay200 800); [reflexivity | reflexivity | lra |].
    discriminate.
  - apply (H3 resized0 overlay200); reflexivity.
Defined.

(** ** Construction: the reveal threshold *)

Lemma clamp_percentage (n : number) :
  n <> NaN -> percentage (Math.max (Fin 0) (Math.min (Fin 100) n)) = true.
Proof.
  intros Hn. unfold percentage.
  destruct n as [| | r |]; [congruence | | |]; cbn [Math.min lt].
  - cbn [Math.max lt le andb]. rewrite !(proj2 (Rleb_true _ _)) by lra.
    reflexivity.
  - destruct (Rltb r 100) eqn:E100; cbn [Math.max lt].
    + apply Rltb_true in E100.
      destruct (Rltb 0 r) eqn:E0; cbn [le].
      * apply Rltb_true in E0. rewrite !(proj2 (Rleb_true _ _)) by lra.
        reflexivity.
      * rewrite !(proj2 (Rleb_true _ _)) by lra. reflexivity.
    + assert (E : Rltb 0 100 = true) by (apply Rltb_true; lra).
      rewrite E. cbn [le]. rewrite !(proj2 (Rleb_true _ _)) by lra.
      reflexivity.
  - cbn [Math.max lt le andb].
    assert (E : Rltb 0 100 = true) by (apply Rltb_true; lra).
    rewrite E. cbn [le]. rewrite !(proj2 (Rleb_true _ _)) by lra.
    reflexivity.
Qed.

Lemma mul_one (n : number) : (n * Fin 1)%js = n.
Proof.
  destruct n as [| | r |]; cbn [mul sign]; try reflexivity.
  - assert (E : Rltb 1 0 = false) by (apply Rltb_false; lra).
    assert (E' : Rltb 0 1 = true) by (apply Rltb_true; lra).
    now rewrite E, E'.
  - now rewrite Rmult_1_r.
  - assert (E : Rltb 1 0 = false) by (apply Rltb_false; lra).
    assert (E' : Rltb 0 1 = true) by (apply Rltb_true; lra).
    now rewrite E, E'.
Qed.

(** The clamp does what it is written for on every argument that converts
    to a number, and on a missing argument. *)
Lemma threshold_of_percentage (arguments : list jsvalue) :
  (List.length arguments <= 4)%nat \/
  ToNumber (nth 4 arguments JSUndefined) <> NaN ->
  percentage (threshold_of arguments) = true.
Proof.
  intros H. unfold threshold_of.
  destruct (Nat.ltb_spec 4 (List.length arguments)) as [Hlen | Hlen].
  - destruct H as [H | H]; [lia |]. apply clamp_percentage.
    now rewrite mul_one.
  - apply clamp_percentage. discriminate.
Qed.

(** C5 fails on the code: a threshold argument that converts to [NaN]
    ([undefined], a string that spells no number) goes through
    [Math.min] and [Math.max] unchanged.  The engine stores [NaN], which is
    not in [0, 100], and the comparison of [testRevealed] is then false
    whatever the overlay holds: the completion callback is never called. *)
Theorem construct_threshold_undefined :
  (exists s : engine,
      construct arguments_unset (initial page0) = Return tt s /\
      revealThreshold s = NaN /\
      percentage (revealThreshold s) = false) /\
  (forall (s : engine) (overlay : canvas),
      revealThreshold s = NaN ->
      overlayCanvas s = Some overlay ->
      isRevealed s = false ->
      (0 < width overlay)%nat ->
      (0 < height overlay)%nat ->
      testRevealed s = Return tt (unfired s)).
Proof.
  split.
  - eexists. split; [simulate; reflexivity |].
    cbn [revealThreshold set_trace set_revealThreshold]. split; reflexivity.
  - intros s overlay Hth Ho Hr Hw Hh.
    rewrite (testRevealed_unrevealed s overlay Ho Hr Hw Hh), Hth.
    assert (E : forall n : number, (n >=? NaN)%js = false)
      by (intros [| | r |]; reflexivity).
    now rewrite E.
Qed.

Lemma construct_threshold_undefined_witness :
  testRevealed (armed NaN) = Return tt (unfired (armed NaN)).
Proof.
  apply (proj2 construct_threshold_undefined (armed NaN) overlay2);
    try reflexivity; simpl; lia.
Defined.

(** ** Readiness: the join over the two loads *)

Lemma settle_in_either_order (s : engine) (o b : option canvas)
    (overlayFirst : bool) :
  overlayLoaded s = false ->
  brushLoaded s = false ->
  let first := if overlayFirst then overlaySettled o else brushSettled b in
  let second := if overlayFirst then brushSettled b else overlaySettled o in
  exists s1 : engine,
    first s = Return tt s1 /\
    trace s1 = trace s /\
    second s1 = Return tt (joined o b s).
Proof.
  intros Ho Hb.
  destruct s as [oc bc op ol bl down po oo sc q lp mpd rev th [pw cl ct hpe] tr].
  cbn [overlayLoaded brushLoaded] in Ho, Hb. subst ol bl.
  destruct overlayFirst, o as [overlay |], b as [brush |], hpe;
    cbv zeta; eexists; (split; [simulate_open; reflexivity |]);
    (split; [reflexivity |]); simulate_open; reflexivity.
Qed.

(** ** What the pointer and resize handlers leave alone *)

Lemma untouched_refl (s : engine) : untouched s s.
Proof. repeat split. Qed.

Lemma untouched_trans (s1 s2 s3 : engine) :
  untouched s1 s2 -> untouched s2 s3 -> untouched s1 s3.
Proof.
  intros (H1 & H2 & H3 & H4) (H1' & H2' & H3' & H4').
  repeat split; congruence.
Qed.

Lemma readies_app (t u : list effect) :
  readies (t ++ u) = (readies t + readies u)%nat.
Proof. unfold readies. now rewrite filter_app, length_app. Qed.

Ltac untouched_leaf :=
  unfold untouched; cbn -[readies]; rewrite ?readies_app; cbn;
  repeat split; lia.

Create HintDb untouched_db.

Ltac untouched_frame :=
  frame_with untouched_refl untouched_trans
    ltac:(auto 1 with untouched_db nocore) untouched_leaf.

Lemma tween_loop_untouched (fuel : nat) :
  forall (i n : number) (p : point) (dx dy : number),
    respects untouched (tween_loop fuel i n p dx dy).
Proof.
  induction fuel as [| fuel IH]; intros i n p dx dy;
    rewrite tween_loop_unfold; unfold push; untouched_frame.
Qed.
#[local] Hint Resolve tween_loop_untouched : untouched_db.

Lemma addPoint_untouched (fuel : nat) (p : point) (tween : bool) :
  respects untouched (addPoint fuel p tween).
Proof. unfold addPoint, push. untouched_frame. Qed.
#[local] Hint Resolve addPoint_untouched : untouched_db.

Lemma getPointFromEvent_untouched (ev : event) :
  respects untouched (getPointFromEvent ev).
Proof. unfold getPointFromEvent. untouched_frame. Qed.
#[local] Hint Resolve getPointFromEvent_untouched : untouched_db.

Lemma getOffsetPointFromEvent_untouched (ev : event) :
  respects untouched (getOffsetPointFromEvent ev).
Proof. unfold getOffsetPointFromEvent. untouched_frame. Qed.
#[local] Hint Resolve getOffsetPointFromEvent_untouched : untouched_db.

Lemma testRevealed_untouched : respects untouched testRevealed.
Proof. unfold testRevealed, getImageData, emit. untouched_frame. Qed.
#[local] Hint Resolve testRevealed_untouched : untouched_db.

Lemma onPointerDown_untouched (fuel : nat) (ev : event) :
  respects untouched (onPointerDown fuel ev).
Proof. unfold onPointerDown, cancelEvent, emit. untouched_frame. Qed.

Lemma onPointerMove_untouched (fuel : nat) (ev : event) :
  respects untouched (onPointerMove fuel ev).
Proof. unfold onPointerMove, cancelEvent, emit. untouched_frame. Qed.

Lemma onPointerUp_untouched (ev : event) : respects untouched (onPointerUp ev).
Proof. unfold onPointerUp, cancelEvent, emit. untouched_frame. Qed.

Lemma onResize_untouched : respects untouched onResize.
Proof. unfold onResize. untouched_frame. Qed.

Lemma quiet_refl (s : engine) : quiet s s.
Proof. reflexivity. Qed.

Lemma quiet_trans (s1 s2 s3 : engine) : quiet s1 s2 -> quiet s2 s3 -> quiet s1 s3.
Proof. unfold quiet. congruence. Qed.

Ltac quiet_leaf :=
  unfold quiet; cbn -[readies]; rewrite ?readies_app; cbn; lia.

Lemma drain_quiet (drawImage : rasterizer) (queue : list point) :
  respects quiet (drain drawImage queue).
Proof.
  induction queue as [| p rest IH]; cbn [drain]; unfold emit;
    frame_with quiet_refl quiet_trans ltac:(assumption) quiet_leaf.
Qed.

Lemma draw_quiet (drawImage : rasterizer) : respects quiet (draw drawImage).
Proof.
  unfold draw, emit.
  frame_with quiet_refl quiet_trans ltac:(apply drain_quiet) quiet_leaf.
Qed.

Lemma dispatch_untouched (drawImage : rasterizer) (fuel : nat) (cb : callback) :
  interaction cb = true ->
  cb <> Frame ->
  respects untouched (dispatch drawImage fuel cb).
Proof.
  intros Hi Hf. destruct cb; try discriminate; cbn [dispatch].
  - apply onPointerDown_untouched.
  - apply onPointerMove_untouched.
  - apply onPointerUp_untouched.
  - untouched_frame.
  - apply onResize_untouched.
  - congruence.
Qed.

Lemma interactions_quiet (drawImage : rasterizer) (s s' : engine) :
  interactions drawImage s s' -> readies (trace s') = readies (trace s).
Proof.
  induction 1 as [| s' s'' fuel cb _ IH Hi Hcb]; [reflexivity |].
  rewrite <- IH. destruct cb; try discriminate.
  - apply (onPointerDown_untouched fuel ev) in Hcb. apply Hcb.
  - apply (onPointerMove_untouched fuel ev) in Hcb. apply Hcb.
  - apply (onPointerUp_untouched ev) in Hcb. apply Hcb.
  - cbn in Hcb. now injection Hcb as <-.
  - apply onResize_untouched in Hcb. apply Hcb.
  - now apply (draw_quiet drawImage) in Hcb.
Qed.

Lemma initialisation_readies (pg : page) : readies (initialisation pg) = 1%nat.
Proof.
  unfold initialisation, listeners. destruct (hasPointerEvent pg); reflexivity.
Qed.

(** C6: whatever the two loads give and whichever settles first, nothing
    happens when the first one settles; when the second one settles the
    engine is initialised and the ready callback called, once and last, if
    both gave a canvas, and otherwise the failure is logged and nothing else
    is done (no listener, no frame request, no ready callback, the scale,
    the spacing and the compositing operation as they were).  The state
    reached does not depend on the order.  No later pointer, resize or
    frame callback calls the ready callback again. *)
Theorem ready_once_after_both_loads :
  (forall (s : engine) (o b : option canvas) (overlayFirst : bool),
      overlayLoaded s = false ->
      brushLoaded s = false ->
      let first := if overlayFirst then overlaySettled o else brushSettled b in
      let second := if overlayFirst then brushSettled b else overlaySettled o in
      exists s1 : engine,
        first s = Return tt s1 /\
        trace s1 = trace s /\
        second s1 = Return tt (joined o b s) /\
        trace (joined o b s) = trace s ++ join_effects o b (layout s) /\
        readies (trace (joined o b s)) =
        (readies (trace s) +
         match o, b with Some _, Some _ => 1 | _, _ => 0 end)%nat /\
        (o = None \/ b = None ->
         joined o b s =
         set_trace (trace s ++ [ConsoleError]) (settled o b s))) /\
  (forall (drawImage : rasterizer) (s s' : engine),
      interactions drawImage s s' ->
      readies (trace s') = readies (trace s)).
Proof.
  split; [| exact interactions_quiet].
  intros s o b overlayFirst Ho Hb first second.
  destruct (settle_in_either_order s o b overlayFirst Ho Hb)
    as (s1 & H1 & Ht & H2).
  exists s1. split; [exact H1 | split; [exact Ht | split; [exact H2 |]]].
  assert (Htrace : trace (joined o b s) = trace s ++ join_effects o b (layout s)).
  { destruct o, b; reflexivity. }
  split; [exact Htrace | split].
  - rewrite Htrace, readies_app. f_equal.
    destruct o, b; cbn [join_effects]; try reflexivity.
    apply initialisation_readies.
  - intros [-> | ->]; [reflexivity | destruct o; reflexivity].
Qed.

Lemma ready_once_after_both_loads_witness :
  (exists s1 : engine,
      brushSettled (Some brush20) (initial page0) = Return tt s1 /\
      trace s1 = [] /\
      overlaySettled (Some overlay2) s1 =
      Return tt (joined (Some overlay2) (Some brush20) (initial page0)) /\
      trace (joined (Some overlay2) (Some brush20) (initial page0)) =
      initialisation page0 /\
      readies (trace (joined (Some overlay2) (Some brush20) (initial page0))) =
      1%nat /\
      (Some overlay2 = None \/ Some brush20 = None ->
       joined (Some overlay2) (Some brush20) (initial page0) =
       set_trace [ConsoleError]
         (settled (Some overlay2) (Some brush20) (initial page0)))) /\
  readies (trace (initial page0)) = readies (trace (initial page0)).
Proof.
  split.
  - apply (proj1 ready_once_after_both_loads (initial page0)
             (Some overlay2) (Some brush20) false); reflexivity.
  - apply (proj2 ready_once_after_both_loads drawImage_ref).
    apply interactions_refl.
Defined.

(** ** Erasure is never additive *)

Lemma erases_refl (c : canvas) : erases c c.
Proof. repeat split; lia. Qed.

Lemma erases_trans (c1 c2 c3 : canvas) :
  erases c1 c2 -> erases c2 c3 -> erases c1 c3.
Proof.
  intros (Hw & Hh & Hl & Ha) (Hw' & Hh' & Hl' & Ha').
  repeat split; try congruence.
  intros k. specialize (Ha k). specialize (Ha' k). lia.
Qed.

Lemma countVisible_le (n : nat) :
  forall pixels pixels' : list Z,
    (List.length pixels <= n)%nat ->
    List.length pixels' = List.length pixels ->
    (forall k : nat, (alphaAt pixels' k <= alphaAt pixels k)%Z) ->
    (countVisible pixels <= countVisible pixels')%nat.
Proof.
  induction n as [| n IH]; intros pixels pixels' Hn Hlen Ha.
  - destruct pixels; [simpl; lia | simpl in Hn; lia].
  - destruct pixels as [| r [| g [| b [| a rest]]]]; try (simpl; lia).
    destruct pixels' as [| r' [| g' [| b' [| a' rest']]]]; try discriminate.
    cbn [countVisible].
    assert (Hrest : (countVisible rest <= countVisible rest')%nat).
    { apply IH.
      - simpl in Hn. lia.
      - simpl in Hlen. lia.
      - intros k. specialize (Ha (S k)). unfold alphaAt in *.
        replace (4 * S k + 3)%nat with (S (S (S (S (4 * k + 3))))) in Ha by lia.
        exact Ha. }
    specialize (Ha O). unfold alphaAt in Ha. cbn [Nat.mul Nat.add nth] in Ha.
    destruct (Z.leb_spec a alphaThreshold), (Z.leb_spec a' alphaThreshold); lia.
Qed.

Lemma countVisible_erases (before after : canvas) :
  erases before after ->
  (countVisible (data before) <= countVisible (data after))%nat.
Proof.
  intros (_ & _ & Hl & Ha).
  now apply (countVisible_le (List.length (data before))).
Qed.

Lemma drain_erases (drawImage : rasterizer) (queue : list point) :
  erasing drawImage ->
  forall (s s' : engine) (overlay brush : canvas),
    initialised s overlay brush ->
    final (drain drawImage queue s) = Some s' ->
    exists overlay' : canvas,
      initialised s' overlay' brush /\ erases overlay overlay'.
Proof.
  intros Hplatform. induction queue as [| p rest IH];
    intros s s' overlay brush Hinit H; cbn [drain] in H.
  - injection H as <-. exists overlay. split; [exact Hinit | apply erases_refl].
  - destruct Hinit as (Ho & Hb & Hop & Hbo & Hbb).
    cbv [bind assign get emit] in H.
    cbn [brushCanvas overlayCanvas globalCompositeOperation set_paintQueue
         set_trace set_overlayCanvas trace] in H.
    rewrite Ho, Hb, Hop in H.
    destruct (Hplatform brush
                (px p - of_nat (width brush) / Fin 2)%js
                (py p - of_nat (height brush) / Fin 2)%js overlay Hbb Hbo)
      as [Hbytes Herases].
    apply IH with (overlay := drawImage DestinationOut brush
                                (px p - of_nat (width brush) / Fin 2)%js
                                (py p - of_nat (height brush) / Fin 2)%js
                                overlay)
                  (brush := brush) in H.
    + destruct H as (overlay' & Hinit' & He). exists overlay'.
      split; [exact Hinit' | now apply (erases_trans _ _ _ Herases)].
    + repeat split; cbn; assumption.
Qed.

Lemma draw_erases (drawImage : rasterizer) :
  erasing drawImage ->
  forall (s s' : engine) (overlay brush : canvas),
    initialised s overlay brush ->
    final (draw drawImage s) = Some s' ->
    exists overlay' : canvas,
      initialised s' overlay' brush /\ erases overlay overlay'.
Proof.
  intros Hplatform s s' overlay brush Hinit H.
  unfold draw, bind at 1, get in H. unfold bind in H.
  pose proof (drain_erases drawImage (paintQueue s) Hplatform s) as Hdrain.
  destruct (drain drawImage (paintQueue s) s) as [[] s1 | s1 |] eqn:E;
    [| | discriminate].
  - destruct (Hdrain s1 overlay brush Hinit eq_refl) as (overlay' & Hi & He).
    cbv [emit assign final] in H. injection H as <-.
    exists overlay'. split; [exact Hi | exact He].
  - cbn [final] in H. injection H as <-.
    exact (Hdrain s1 overlay brush Hinit eq_refl).
Qed.

Lemma untouched_initialised (s s' : engine) (overlay brush : canvas) :
  untouched s s' -> initialised s overlay brush -> initialised s' overlay brush.
Proof.
  intros (Ho & Hb & Hop & _) (Ho' & Hb' & Hop' & Hbytes).
  repeat split; try apply Hbytes; congruence.
Qed.

Lemma interactions_erase (drawImage : rasterizer) (s s' : engine)
    (overlay brush : canvas) :
  erasing drawImage ->
  initialised s overlay brush ->
  interactions drawImage s s' ->
  exists overlay' : canvas,
    initialised s' overlay' brush /\ erases overlay overlay'.
Proof.
  intros Hplatform Hinit Hs.
  induction Hs as [| s' s'' fuel cb _ IH Hi Hcb].
  - exists overlay. split; [exact Hinit | apply erases_refl].
  - destruct IH as (overlay' & Hinit' & He).
    assert (Hframe : cb = Frame \/ cb <> Frame)
      by (destruct cb; (now left) || (right; discriminate)).
    destruct Hframe as [-> | Hother].
    + cbn [dispatch] in Hcb.
      destruct (draw_erases drawImage Hplatform s' s'' overlay' brush
                  Hinit' Hcb) as (overlay'' & Hinit'' & He').
      exists overlay''. split; [exact Hinit'' |].
      now apply (erases_trans _ _ _ He).
    + exists overlay'. split; [| exact He].
      apply (untouched_initialised s' s''); [| exact Hinit'].
      now apply (dispatch_untouched drawImage fuel cb Hi Hother).
Qed.

Lemma percent_le (n n' w h : nat) :
  (0 < w)%nat -> (0 < h)%nat -> (n <= n')%nat ->
  (revealedPercent n (of_nat w * of_nat h) <=?
   revealedPercent n' (of_nat w * of_nat h))%js = true.
Proof.
  intros Hw Hh Hn. rewrite !revealedPercent_finite by assumption.
  apply Rleb_true.
  assert (Ht : 0 < INR (w * h)) by (apply lt_0_INR; nia).
  apply le_INR in Hn.
  apply Rmult_le_compat_r; [lra |].
  apply Rmult_le_compat_r; [| exact Hn].
  now apply Rlt_le, Rinv_0_lt_compat.
Qed.

Lemma ready_initialised (overlay brush : canvas) (s : engine) :
  bytes overlay -> bytes brush ->
  initialised (ready overlay brush s) overlay brush.
Proof. intros Ho Hb. repeat split; assumption. Qed.

(** C8: once the engine is initialised, and given a browser whose
    ['destination-out'] drawing takes alpha away, every pointer, resize or
    frame callback leaves each alpha byte of the overlay as it was or
    smaller.  Only the frame callback writes the overlay at all.  So the
    number of pixels at or below the cutoff never goes down, and nor does the
    fraction that [testRevealed] computes from it. *)
Theorem overlay_alpha_never_increases :
  forall (drawImage : rasterizer) (s s' : engine) (overlay brush : canvas),
    erasing drawImage ->
    initialised s overlay brush ->
    interactions drawImage s s' ->
    exists overlay' : canvas,
      initialised s' overlay' brush /\
      erases overlay overlay' /\
      (countVisible (data overlay) <= countVisible (data overlay'))%nat /\
      ((0 < width overlay)%nat -> (0 < height overlay)%nat ->
       (revealedPercent (countVisible (data overlay))
          (of_nat (width overlay) * of_nat (height overlay)) <=?
        revealedPercent (countVisible (data overlay'))
          (of_nat (width overlay') * of_nat (height overlay')))%js = true) /\
      (forall (fuel : nat) (cb : callback) (s'' : engine),
          interaction cb = true ->
          cb <> Frame ->
          final (dispatch drawImage fuel cb s') = Some s'' ->
          overlayCanvas s'' = Some overlay').
Proof.
  intros drawImage s s' overlay brush Hplatform Hinit Hs.
  destruct (interactions_erase drawImage s s' overlay brush Hplatform Hinit Hs)
    as (overlay' & Hinit' & He).
  exists overlay'.
  pose proof (countVisible_erases _ _ He) as Hcount.
  split; [exact Hinit' | split; [exact He | split; [exact Hcount | split]]].
  - intros Hw Hh. destruct He as (-> & -> & _). now apply percent_le.
  - intros fuel cb s'' Hi Hother Hcb.
    apply (dispatch_untouched drawImage fuel cb Hi Hother) in Hcb.
    destruct Hcb as (Ho & _). rewrite Ho. apply Hinit'.
Qed.

(** *** The reference rasterizer is erasing *)

Lemma mapi_length {A B : Type} (f : nat -> A -> B) (l : list A) :
  forall k : nat, List.length (mapi f k l) = List.length l.
Proof. induction l as [| a l IH]; intros k; simpl; [easy | now rewrite IH]. Qed.

Lemma mapi_nth {A B : Type} (f : nat -> A -> B) (d : A) (d' : B) (l : list A) :
  forall k i : nat,
    (i < List.length l)%nat ->
    nth i (mapi f k l) d' = f (k + i)%nat (nth i l d).
Proof.
  induction l as [| a l IH]; intros k i Hi; simpl in Hi; [lia |].
  destruct i as [| i]; cbn [mapi nth].
  - now rewrite Nat.add_0_r.
  - rewrite IH by lia. f_equal. lia.
Qed.

Lemma mapi_Forall {A B : Type} (f : nat -> A -> B) (P : A -> Prop)
    (Q : B -> Prop) (l : list A) :
  (forall k a, P a -> Q (f k a)) ->
  Forall P l -> forall k : nat, Forall Q (mapi f k l).
Proof.
  intros Hf Hl. induction Hl as [| a l Ha _ IH]; intros k; cbn [mapi];
    constructor; auto.
Qed.

Lemma alphaAt_byte (pixels : list Z) (k : nat) :
  Forall (fun v : Z => (0 <= v <= 255)%Z) pixels ->
  (0 <= alphaAt pixels k <= 255)%Z.
Proof.
  intros H. unfold alphaAt.
  destruct (Nat.lt_ge_cases (4 * k + 3) (List.length pixels)) as [Hk | Hk].
  - rewrite Forall_forall in H. apply H. now apply nth_In.
  - rewrite nth_overflow by exact Hk. lia.
Qed.

Lemma sourceAlpha_byte (src : canvas) (sx sy : Z) :
  bytes src -> (0 <= sourceAlpha src sx sy <= 255)%Z.
Proof.
  intros H. unfold sourceAlpha.
  destruct (_ && _)%bool; [now apply alphaAt_byte | lia].
Qed.

Lemma blend_out_le (a v : Z) :
  (0 <= a <= 255)%Z -> (0 <= v <= 255)%Z ->
  (0 <= blend DestinationOut a v <= v)%Z.
Proof.
  intros Ha Hv. cbn [blend]. split.
  - apply Z.div_pos; nia.
  - apply Z.div_le_upper_bound; nia.
Qed.

Lemma compose_out_le (src dst : canvas) (ox oy : Z) (k : nat) (v : Z) :
  bytes src -> (0 <= v <= 255)%Z ->
  (0 <= compose DestinationOut src dst ox oy k v <= v)%Z.
Proof.
  intros Hs Hv. unfold compose.
  destruct (k mod 4 =? 3)%nat; [| lia].
  apply blend_out_le; [now apply sourceAlpha_byte | exact Hv].
Qed.

Lemma drawImage_ref_erasing : erasing drawImage_ref.
Proof.
  intros src dx dy dst Hs Hd. unfold drawImage_ref.
  destruct dx as [| | rx |]; try (split; [exact Hd | apply erases_refl]).
  destruct dy as [| | ry |]; try (split; [exact Hd | apply erases_refl]).
  split.
  - unfold bytes. cbn [data].
    apply (mapi_Forall _ (fun v : Z => (0 <= v <= 255)%Z)); [| exact Hd].
    intros k v Hv.
    pose proof (compose_out_le src dst (floorZ rx) (floorZ ry) k v Hs Hv). lia.
  - repeat split; cbn [width height data]; [apply mapi_length |].
    intros k. unfold alphaAt.
    destruct (Nat.lt_ge_cases (4 * k + 3) (List.length (data dst))) as [Hk | Hk].
    + rewrite (mapi_nth _ 0%Z) by exact Hk.
      apply compose_out_le; [exact Hs |].
      unfold bytes in Hd. rewrite Forall_forall in Hd. apply Hd.
      now apply nth_In.
    + rewrite !nth_overflow; [lia | exact Hk | now rewrite mapi_length].
Qed.

Lemma repeat_bytes (v : Z) (n : nat) :
  (0 <= v <= 255)%Z -> Forall (fun v : Z => (0 <= v <= 255)%Z) (repeat v n).
Proof. intros Hv. apply Forall_forall. intros x Hx. apply repeat_spec in Hx. now subst. Qed.

Lemma overlay2_bytes : bytes overlay2.
Proof. unfold bytes, overlay2. cbn [data]. repeat constructor; lia. Qed.

Lemma brush20_bytes : bytes brush20.
Proof. apply repeat_bytes. lia. Qed.

Lemma painting0_initialised : initialised painting0 overlay2 brush20.
Proof.
  repeat split; try reflexivity; [apply overlay2_bytes | apply brush20_bytes].
Qed.

Lemma overlay_alpha_never_increases_witness :
  exists (s' : engine) (overlay' : canvas),
    final (dispatch drawImage_ref 0 Frame painting0) = Some s' /\
    initialised s' overlay' brush20 /\
    erases overlay2 overlay' /\
    (countVisible (data overlay2) <= countVisible (data overlay'))%nat.
Proof.
  assert (Hrun : { s' : engine |
                   final (dispatch drawImage_ref 0 Frame painting0) = Some s' }).
  { eexists.
    cbv -[JS.add JS.sub JS.mul JS.div of_nat drawImage_ref brush20 overlay2
          width height].
    reflexivity. }
  destruct Hrun as [s' Hrun]. exists s'.
  destruct (overlay_alpha_never_increases drawImage_ref painting0 s'
              overlay2 brush20 drawImage_ref_erasing painting0_initialised)
    as (overlay' & Hinit & He & Hcount & _).
  - apply (interactions_step _ _ painting0 s' 0%nat Frame).
    + apply interactions_refl.
    + reflexivity.
    + exact Hrun.
  - exists overlay'. auto.
Defined.

(** ** The paint queue over a run *)

Lemma round_idempotent (n : number) : Math.round (Math.round n) = Math.round n.
Proof.
  destruct n as [| | r |]; cbn [Math.round]; try reflexivity.
  now rewrite roundZ_IZR.
Qed.

Lemma whole_finite (r : R) : whole (Fin r) <-> exists z : Z, r = IZR z.
Proof.
  unfold whole. cbn [Math.round]. split.
  - intros H. exists (roundZ r). congruence.
  - intros [z ->]. now rewrite roundZ_IZR.
Qed.

Lemma keeps_whole_refl (s : engine) : keeps_whole s s.
Proof. intros H. exact H. Qed.

Lemma keeps_whole_trans (s1 s2 s3 : engine) :
  keeps_whole s1 s2 -> keeps_whole s2 s3 -> keeps_whole s1 s3.
Proof. unfold keeps_whole. auto. Qed.

Ltac whole_leaf :=
  unfold keeps_whole, queue_whole; cbv zeta;
  cbn [paintQueue lastPoint set_overlayCanvas set_brushCanvas
       set_globalCompositeOperation set_overlayLoaded set_brushLoaded
       set_isPointerDown set_pointerOrigin set_offsetOrigin set_scale
       set_paintQueue set_lastPoint set_minPointDist set_isRevealed
       set_revealThreshold set_layout set_trace];
  let Hq := fresh "Hq" in
  let Hl := fresh "Hl" in
  intros [Hq Hl]; split;
  [ rewrite ?Forall_app; repeat split; try assumption;
    repeat constructor; apply round_idempotent
  | first
      [ assumption
      | let p := fresh "p" in
        let H := fresh "H" in
        intros p H; first
          [ discriminate
          | injection H as <-; split; apply round_idempotent ] ] ].

Create HintDb whole_db.

Ltac whole_frame :=
  frame_with keeps_whole_refl keeps_whole_trans
    ltac:(auto 1 with whole_db nocore) whole_leaf.

Lemma tween_loop_whole (fuel : nat) :
  forall (i n : number) (p : point) (dx dy : number),
    respects keeps_whole (tween_loop fuel i n p dx dy).
Proof.
  induction fuel as [| fuel IH]; intros i n p dx dy;
    rewrite tween_loop_unfold; unfold push; whole_frame.
Qed.
#[local] Hint Resolve tween_loop_whole : whole_db.

Lemma addPoint_whole (fuel : nat) (p : point) (tween : bool) :
  respects keeps_whole (addPoint fuel p tween).
Proof. unfold addPoint, push. whole_frame. Qed.
#[local] Hint Resolve addPoint_whole : whole_db.

Lemma construct_whole (arguments : list jsvalue) :
  respects keeps_whole (construct arguments).
Proof.
  unfold construct, getCanvasFromImage, overlaySettled, brushSettled,
    onCanvasLoaded, addEventListeners, onResize, emit.
  whole_frame.
Qed.

Lemma handlers_whole (drawImage : rasterizer) (fuel : nat) (cb : callback) :
  cb <> Frame -> respects keeps_whole (dispatch drawImage fuel cb).
Proof.
  intros Hcb. destruct cb; try congruence; cbn [dispatch];
    unfold overlaySettled, brushSettled, onCanvasLoaded, addEventListeners,
      onPointerDown, onPointerMove, onPointerUp, testRevealed, getImageData,
      onResize, cancelEvent, getPointFromEvent, getOffsetPointFromEvent, emit;
    whole_frame.
Qed.

Lemma same_stroke_refl (s : engine) : same_stroke s s.
Proof. repeat split. Qed.

Lemma same_stroke_trans (s1 s2 s3 : engine) :
  same_stroke s1 s2 -> same_stroke s2 s3 -> same_stroke s1 s3.
Proof.
  intros (H1 & H2 & H3 & H4) (H1' & H2' & H3' & H4').
  repeat split; congruence.
Qed.

Ltac same_stroke_leaf := repeat split.

Create HintDb same_stroke_db.

Ltac same_stroke_frame :=
  frame_with same_stroke_refl same_stroke_trans
    ltac:(auto 1 with same_stroke_db nocore) same_stroke_leaf.

Lemma drain_same_stroke (drawImage : rasterizer) (queue : list point) :
  respects same_stroke (drain drawImage queue).
Proof.
  induction queue as [| p rest IH]; cbn [drain]; unfold emit;
    same_stroke_frame.
Qed.
#[local] Hint Resolve drain_same_stroke : same_stroke_db.

Lemma testRevealed_same_stroke : respects same_stroke testRevealed.
Proof. unfold testRevealed, getImageData, emit. same_stroke_frame. Qed.

(** What no pointer event changes the stroke variables of: the loads, the
    layout, the resize and the frame callbacks, and the construction. *)
Lemma bystanders_same_stroke (drawImage : rasterizer) (fuel : nat)
    (cb : callback) :
  (forall ev, cb <> PointerDown ev) ->
  (forall ev, cb <> PointerMove ev) ->
  (forall ev, cb <> PointerUp ev) ->
  respects same_stroke (dispatch drawImage fuel cb).
Proof.
  intros Hd Hm Hu.
  destruct cb as [c | c | ev | ev | ev | pg | |];
    try (now elim (Hd ev)); try (now elim (Hm ev)); try (now elim (Hu ev));
    cbn [dispatch];
    unfold overlaySettled, brushSettled, onCanvasLoaded, addEventListeners,
      onResize, draw, emit;
    same_stroke_frame.
Qed.

Lemma construct_same_stroke (arguments : list jsvalue) :
  respects same_stroke (construct arguments).
Proof.
  unfold construct, getCanvasFromImage, overlaySettled, brushSettled,
    onCanvasLoaded, addEventListeners, onResize, emit.
  same_stroke_frame.
Qed.

(** The render loop leaves in the queue a tail of what it found there. *)
Lemma drain_queue (drawImage : rasterizer) (queue : list point) :
  forall s s' : engine,
    paintQueue s = queue ->
    final (drain drawImage queue s) = Some s' ->
    exists k : nat, paintQueue s' = skipn k queue.
Proof.
  induction queue as [| p rest IH]; intros s s' Hq H; cbn [drain] in H.
  - injection H as <-. exists O. exact Hq.
  - cbv [bind assign get emit] in H.
    cbn [brushCanvas overlayCanvas globalCompositeOperation set_paintQueue
         set_trace trace] in H.
    destruct (brushCanvas s) as [brush |];
      [destruct (overlayCanvas s) as [overlay |] |].
    + apply IH in H; [| reflexivity].
      destruct H as [k Hk]. exists (S k). exact Hk.
    + injection H as <-. exists 1%nat. reflexivity.
    + injection H as <-. exists 1%nat. reflexivity.
Qed.

Lemma draw_queue (drawImage : rasterizer) (s s' : engine) :
  final (draw drawImage s) = Some s' ->
  exists k : nat, paintQueue s' = skipn k (paintQueue s).
Proof.
  intros H. unfold draw, bind at 1, get in H. unfold bind in H.
  pose proof (drain_queue drawImage (paintQueue s) s) as Hdrain.
  destruct (drain drawImage (paintQueue s) s) as [[] s1 | s1 |];
    [| | discriminate].
  - cbv [emit assign final] in H. injection H as <-.
    exact (Hdrain s1 eq_refl eq_refl).
  - cbn [final] in H. injection H as <-. exact (Hdrain s1 eq_refl eq_refl).
Qed.

Lemma Forall_skipn {A : Type} (P : A -> Prop) (k : nat) (l : list A) :
  Forall P l -> Forall P (skipn k l).
Proof.
  revert l. induction k as [| k IH]; intros l H; [exact H |].
  destruct l as [| a l]; [exact H |]. cbn [skipn]. apply IH.
  now inversion H.
Qed.

Lemma dispatch_whole (drawImage : rasterizer) (fuel : nat) (cb : callback) :
  respects keeps_whole (dispatch drawImage fuel cb).
Proof.
  assert (Hframe : cb = Frame \/ cb <> Frame)
    by (destruct cb; (now left) || (right; discriminate)).
  destruct Hframe as [-> | Hother]; [| now apply handlers_whole].
  intros s s' H [Hq Hl]. cbn [dispatch] in H.
  destruct (draw_queue drawImage s s' H) as [k Hk].
  assert (Hs : same_stroke s s').
  { apply (bystanders_same_stroke drawImage fuel Frame); try discriminate.
    exact H. }
  destruct Hs as (_ & Hlast & _). split.
  - rewrite Hk. now apply Forall_skipn.
  - now rewrite Hlast.
Qed.

Lemma steps_whole (drawImage : rasterizer) (s s' : engine) :
  steps drawImage s s' -> keeps_whole s s'.
Proof.
  induction 1 as [| s' s'' _ IH [fuel cb Hcb]].
  - apply keeps_whole_refl.
  - apply (keeps_whole_trans _ _ _ IH).
    now apply (dispatch_whole drawImage fuel cb).
Qed.

(** X1: in every state an engine reaches, from its construction on and
    whatever callbacks the browser delivers, every point of the paint queue
    and the remembered last point have coordinates that [Math.round]
    leaves alone: a finite coordinate is an integer. *)
Theorem queued_points_are_whole :
  forall (drawImage : rasterizer) (pg : page) (arguments : list jsvalue)
         (s0 s : engine),
    final (construct arguments (initial pg)) = Some s0 ->
    steps drawImage s0 s ->
    (forall p : point,
        In p (paintQueue s) \/ lastPoint s = Some p ->
        Math.round (px p) = px p /\ Math.round (py p) = py p) /\
    (forall (p : point) (r : R),
        In p (paintQueue s) \/ lastPoint s = Some p ->
        px p = Fin r \/ py p = Fin r ->
        exists z : Z, r = IZR z).
Proof.
  intros drawImage pg arguments s0 s Hc Hs.
  assert (Hw : queue_whole s).
  { apply (steps_whole drawImage s0 s Hs).
    apply (construct_whole arguments (initial pg) s0 Hc).
    split; [constructor | discriminate]. }
  destruct Hw as [Hq Hl].
  assert (Hall : forall p : point,
             In p (paintQueue s) \/ lastPoint s = Some p -> whole_point p).
  { intros p [Hp | Hp]; [| now apply Hl].
    rewrite Forall_forall in Hq. now apply Hq. }
  split; [exact Hall |].
  intros p r Hp Hr. destruct (Hall p Hp) as [Hx Hy].
  apply whole_finite. destruct Hr as [Hr | Hr]; rewrite <- Hr; assumption.
Qed.

Lemma queued_points_are_whole_witness :
  exists s0 s : engine,
    final (construct arguments0 (initial page0)) = Some s0 /\
    run drawImage_ref 0 lifetime0 s0 = Some s /\
    (forall p : point,
        In p (paintQueue s) \/ lastPoint s = Some p ->
        Math.round (px p) = px p /\ Math.round (py p) = py p).
Proof.
  eexists. eexists. split; [simulate; reflexivity |].
  split; [simulate; reflexivity |].
  eapply (queued_points_are_whole drawImage_ref page0 arguments0).
  - simulate. reflexivity.
  - apply (run_steps drawImage_ref 0 lifetime0). simulate. reflexivity.
Defined.

(** ** Strokes over a run *)

Lemma stays_down_refl (s : engine) : stays_down s s.
Proof. intros H. exact H. Qed.

Lemma stays_down_trans (s1 s2 s3 : engine) :
  stays_down s1 s2 -> stays_down s2 s3 -> stays_down s1 s3.
Proof. unfold stays_down. auto. Qed.

Ltac stays_down_leaf := unfold stays_down; cbn; auto.

Create HintDb stays_down_db.

Ltac stays_down_frame :=
  frame_with stays_down_refl stays_down_trans
    ltac:(auto 1 with stays_down_db nocore) stays_down_leaf.

Lemma tween_loop_stays_down (fuel : nat) :
  forall (i n : number) (p : point) (dx dy : number),
    respects stays_down (tween_loop fuel i n p dx dy).
Proof.
  induction fuel as [| fuel IH]; intros i n p dx dy;
    rewrite tween_loop_unfold; unfold push; stays_down_frame.
Qed.
#[local] Hint Resolve tween_loop_stays_down : stays_down_db.

Lemma addPoint_stays_down (fuel : nat) (p : point) (tween : bool) :
  respects stays_down (addPoint fuel p tween).
Proof. unfold addPoint, push. stays_down_frame. Qed.
#[local] Hint Resolve addPoint_stays_down : stays_down_db.

Lemma afterOpening_stays_down (fuel : nat) (ev : event) :
  respects stays_down (afterOpening fuel ev).
Proof.
  unfold afterOpening, getPointFromEvent, getOffsetPointFromEvent, emit.
  stays_down_frame.
Qed.

Lemma onPointerDown_opens (fuel : nat) (ev : event) (s s' : engine) :
  final (onPointerDown fuel ev s) = Some s' -> isPointerDown s' = true.
Proof.
  intros H.
  change (onPointerDown fuel ev s)
    with (afterOpening fuel ev
            (set_isPointerDown true (set_trace (trace s ++ [PreventDefault]) s)))
    in H.
  apply afterOpening_stays_down in H. apply H. reflexivity.
Qed.

Lemma onPointerMove_stays_down (fuel : nat) (ev : event) :
  respects stays_down (onPointerMove fuel ev).
Proof.
  unfold onPointerMove, cancelEvent, getPointFromEvent, emit.
  stays_down_frame.
Qed.

Lemma same_stroke_idle_clean (s s' : engine) :
  same_stroke s s' -> idle_clean s -> idle_clean s'.
Proof.
  intros (Hd & Hl & Hp & Ho) H. unfold idle_clean.
  rewrite Hd, Hl, Hp, Ho. exact H.
Qed.

Lemma dispatch_idle_clean (drawImage : rasterizer) (fuel : nat) (cb : callback)
    (s s' : engine) :
  final (dispatch drawImage fuel cb s) = Some s' ->
  idle_clean s -> idle_clean s'.
Proof.
  intros H Hs.
  destruct cb as [c | c | ev | ev | ev | pg | |];
    try (apply (same_stroke_idle_clean s s'); [| exact Hs];
         now apply (bystanders_same_stroke drawImage fuel _) in H).
  - cbn [dispatch] in H. apply onPointerDown_opens in H.
    intros Hidle. congruence.
  - cbn [dispatch] in H. destruct (isPointerDown s) eqn:Hdown.
    + apply onPointerMove_stays_down in H. intros Hidle.
      rewrite (H Hdown) in Hidle. discriminate.
    + unfold onPointerMove, bind, get in H. rewrite Hdown in H.
      cbn in H. injection H as <-. exact Hs.
  - cbn [dispatch] in H. destruct (isPointerDown s) eqn:Hdown.
    + rewrite onPointerUp_stroking in H by exact Hdown.
      apply testRevealed_same_stroke in H.
      apply (same_stroke_idle_clean (released s) s' H).
      intros _. repeat split.
    + rewrite onPointerUp_idle in H by exact Hdown.
      injection H as <-. exact Hs.
Qed.

(** X2: in every state an engine reaches, from its construction on and
    whatever callbacks the browser delivers (a handler may throw half-way),
    when no stroke is open the last point is forgotten and both origins are
    back at [(0, 0)]: nothing of a finished stroke reaches the next one. *)
Theorem idle_engine_remembers_no_stroke :
  forall (drawImage : rasterizer) (pg : page) (arguments : list jsvalue)
         (s0 s : engine),
    final (construct arguments (initial pg)) = Some s0 ->
    steps drawImage s0 s ->
    isPointerDown s = false ->
    lastPoint s = None /\
    pointerOrigin s = {| px := Fin 0; py := Fin 0 |} /\
    offsetOrigin s = {| px := Fin 0; py := Fin 0 |}.
Proof.
  intros drawImage pg arguments s0 s Hc Hs.
  assert (H0 : idle_clean s0).
  { apply (same_stroke_idle_clean (initial pg) s0).
    - now apply (construct_same_stroke arguments).
    - intros _. repeat split. }
  clear Hc. induction Hs as [| s' s'' _ IH [fuel cb Hcb]]; [exact H0 |].
  exact (dispatch_idle_clean drawImage fuel cb s' s'' Hcb IH).
Qed.

Lemma idle_engine_remembers_no_stroke_witness :
  exists s0 s : engine,
    final (construct arguments0 (initial page0)) = Some s0 /\
    run drawImage_ref 0 lifetime_idle s0 = Some s /\
    lastPoint s = None /\
    pointerOrigin s = {| px := Fin 0; py := Fin 0 |} /\
    offsetOrigin s = {| px := Fin 0; py := Fin 0 |}.
Proof.
  eexists. eexists. split; [simulate; reflexivity |].
  split; [simulate; reflexivity |].
  eapply (idle_engine_remembers_no_stroke drawImage_ref page0 arguments0).
  - simulate. reflexivity.
  - apply (run_steps drawImage_ref 0 lifetime_idle). simulate. reflexivity.
  - reflexivity.
Defined.

Lemma appends_refl (s : engine) : appends s s.
Proof. exists []. now rewrite app_nil_r. Qed.

Lemma appends_trans (s1 s2 s3 : engine) :
  appends s1 s2 -> appends s2 s3 -> appends s1 s3.
Proof.
  intros [u Hu] [v Hv]. exists (u ++ v). now rewrite Hv, Hu, app_assoc.
Qed.

Ltac appends_leaf :=
  unfold appends; cbn;
  first [ now (exists []; rewrite app_nil_r) | now eexists ].

Create HintDb appends_db.

Ltac appends_frame :=
  frame_with appends_refl appends_trans
    ltac:(auto 1 with appends_db nocore) appends_leaf.

Lemma tween_loop_appends (fuel : nat) :
  forall (i n : number) (p : point) (dx dy : number),
    respects appends (tween_loop fuel i n p dx dy).
Proof.
  induction fuel as [| fuel IH]; intros i n p dx dy;
    rewrite tween_loop_unfold; unfold push; appends_frame.
Qed.
#[local] Hint Resolve tween_loop_appends : appends_db.

Lemma handlers_append (drawImage : rasterizer) (fuel : nat) (cb : callback) :
  cb <> Frame -> respects appends (dispatch drawImage fuel cb).
Proof.
  intros Hcb. destruct cb; try congruence; cbn [dispatch];
    unfold overlaySettled, brushSettled, onCanvasLoaded, addEventListeners,
      onPointerDown, onPointerMove, onPointerUp, testRevealed, getImageData,
      onResize, cancelEvent, getPointFromEvent, getOffsetPointFromEvent,
      addPoint, push, emit;
    appends_frame.
Qed.

(** X3: the paint queue is a queue.  A load, pointer, layout or resize
    callback, returning or throwing, leaves every point already queued in
    place and can only add points after them; the frame callback can only
    take points away from the front. *)
Theorem paintQueue_is_first_in_first_out :
  forall (drawImage : rasterizer) (fuel : nat) (cb : callback) (s s' : engine),
    final (dispatch drawImage fuel cb s) = Some s' ->
    (cb <> Frame ->
     exists suffix : list point, paintQueue s' = paintQueue s ++ suffix) /\
    (cb = Frame ->
     exists k : nat, paintQueue s' = skipn k (paintQueue s)).
Proof.
  intros drawImage fuel cb s s' H. split.
  - intros Hcb. now apply (handlers_append drawImage fuel cb Hcb).
  - intros ->. now apply (draw_queue drawImage).
Qed.

Lemma paintQueue_is_first_in_first_out_witness :
  (PointerDown down0 <> Frame ->
   exists suffix : list point,
     paintQueue (pressed (at_ 5 5) (at_ 1 0) stroke0) =
     paintQueue stroke0 ++ suffix) /\
  (PointerDown down0 = Frame ->
   exists k : nat,
     paintQueue (pressed (at_ 5 5) (at_ 1 0) stroke0) =
     skipn k (paintQueue stroke0)).
Proof.
  apply (paintQueue_is_first_in_first_out drawImage_ref 0 (PointerDown down0)
           stroke0 (pressed (at_ 5 5) (at_ 1 0) stroke0)).
  cbn [dispatch].
  now rewrite (onPointerDown_pressed 0 down0 stroke0 (at_ 5 5) (at_ 1 0)).
Defined.

(** ** The render loop *)

Lemma drain_drains (drawImage : rasterizer) (brush : canvas)
    (queue : list point) :
  forall (s : engine) (overlay : canvas),
    paintQueue s = queue ->
    overlayCanvas s = Some overlay ->
    brushCanvas s = Some brush ->
    drain drawImage queue s =
    Return tt
      (set_trace (trace s ++ map (stamp brush) queue)
         (set_overlayCanvas
            (Some (painted drawImage (globalCompositeOperation s) brush
                     queue overlay))
            (set_paintQueue [] s))).
Proof.
  induction queue as [| p rest IH]; intros s overlay Hq Ho Hb; cbn [drain].
  - destruct s. cbn in *. subst. now rewrite app_nil_r.
  - cbv [bind assign get emit].
    cbn [brushCanvas overlayCanvas globalCompositeOperation set_paintQueue
         set_trace trace].
    rewrite Ho, Hb.
    rewrite (IH _ (drawImage (globalCompositeOperation s) brush
                     (px p - of_nat (width brush) / Fin 2)%js
                     (py p - of_nat (height brush) / Fin 2)%js overlay));
      try reflexivity; try exact Hb.
    cbn [trace set_trace set_overlayCanvas set_paintQueue
         globalCompositeOperation map painted fold_left].
    unfold stamp at 2. rewrite <- app_assoc. reflexivity.
Qed.

(** X4: on an engine that holds both canvases, the frame callback returns
    after stamping the brush once for every queued point, the first queued
    first, the brush centred on the point; it leaves the queue empty and
    asks for the next frame exactly once, whatever the queue held.  With an
    empty queue it draws nothing and only asks for the next frame. *)
Theorem draw_drains_the_queue :
  forall (drawImage : rasterizer) (s : engine) (overlay brush : canvas),
    overlayCanvas s = Some overlay ->
    brushCanvas s = Some brush ->
    draw drawImage s = Return tt (drawn drawImage overlay brush s) /\
    paintQueue (drawn drawImage overlay brush s) = [] /\
    trace (drawn drawImage overlay brush s) =
    trace s ++ map (stamp brush) (paintQueue s) ++ [RequestAnimationFrame] /\
    overlayCanvas (drawn drawImage overlay brush s) =
    Some (fold_left
            (fun (o : canvas) (p : point) =>
               drawImage (globalCompositeOperation s) brush
                 (px p - of_nat (width brush) / Fin 2)%js
                 (py p - of_nat (height brush) / Fin 2)%js o)
            (paintQueue s) overlay) /\
    (paintQueue s = [] ->
     draw drawImage s =
     Return tt (set_trace (trace s ++ [RequestAnimationFrame]) s)).
Proof.
  intros drawImage s overlay brush Ho Hb.
  assert (H : draw drawImage s = Return tt (drawn drawImage overlay brush s)).
  { unfold draw, bind at 1, get. unfold bind.
    rewrite (drain_drains drawImage brush (paintQueue s) s overlay eq_refl Ho Hb).
    cbv [emit assign drawn]. cbn [trace set_trace set_overlayCanvas set_paintQueue].
    now rewrite <- app_assoc. }
  split; [exact H |]. repeat split.
  intros Hq. rewrite H. unfold drawn. rewrite Hq. cbn [map painted fold_left app].
  destruct s. cbn in *. now subst.
Qed.

Lemma draw_drains_the_queue_witness :
  draw drawImage_ref painting0 =
  Return tt (drawn drawImage_ref overlay2 brush20 painting0) /\
  paintQueue (drawn drawImage_ref overlay2 brush20 painting0) = [].
Proof.
  destruct (draw_drains_the_queue drawImage_ref painting0 overlay2 brush20
              eq_refl eq_refl) as (H & Hq & _).
  split; [exact H | exact Hq].
Defined.

(** ** Interpolation leaves no gap *)

Lemma euclid_ge_dx (lx ly x y : R) : Rabs (lx - x) <= euclid lx ly x y.
Proof.
  unfold euclid. rewrite <- sqrt_Rsqr_abs. apply sqrt_le_1.
  - apply Rle_0_sqr.
  - apply Rplus_le_le_0_compat; apply Rle_0_sqr.
  - unfold Rsqr. pose proof (Rle_0_sqr (ly - y)) as H. unfold Rsqr in H. lra.
Qed.

Lemma euclid_ge_dy (lx ly x y : R) : Rabs (ly - y) <= euclid lx ly x y.
Proof.
  unfold euclid. rewrite <- sqrt_Rsqr_abs. apply sqrt_le_1.
  - apply Rle_0_sqr.
  - apply Rplus_le_le_0_compat; apply Rle_0_sqr.
  - unfold Rsqr. pose proof (Rle_0_sqr (lx - x)) as H. unfold Rsqr in H. lra.
Qed.

Lemma product_bound (a b A B : R) :
  - A <= a <= A -> - B <= b <= B -> - (A * B) <= a * b <= A * B.
Proof. intros Ha Hb. nra. Qed.

(** A point at parameter [a] from a sample, the parameters at most half a
    step apart, the steps no longer than the spacing [m]. *)
Lemma coordinate_gap (a u d n m : R) :
  0 < n ->
  - / 2 <= a * n <= / 2 ->
  Rabs u <= d ->
  d <= n * m ->
  - (m / 2) <= a * u <= m / 2.
Proof.
  intros Hn Ha Hu Hd.
  assert (Hu' : - d <= u <= d).
  { unfold Rabs in Hu. destruct (Rcase_abs u); lra. }
  pose proof (product_bound (a * n) u (/ 2) d Ha Hu') as H.
  assert (E : a * n * u = n * (a * u)) by ring. rewrite E in H.
  split.
  - apply (Rmult_le_reg_l n); [exact Hn |]. lra.
  - apply (Rmult_le_reg_l n); [exact Hn |]. lra.
Qed.

Lemma roundZ_gap (r : R) : - / 2 <= r - IZR (roundZ r) <= / 2.
Proof. pose proof (roundZ_spec r). lra. Qed.

Lemma spacing_le (d m : R) :
  0 < m -> m < d ->
  d <= IZR (ceilZ (d / m)) * m /\ (IZR (ceilZ (d / m)) - 1) * m < d.
Proof.
  intros Hm Hd. destruct (ceilZ_spec (d / m)) as [Hlo Hhi].
  assert (E : d = d / m * m) by (field; lra).
  split.
  - rewrite E at 1. apply Rmult_le_compat_r; lra.
  - rewrite E at 2. apply Rmult_lt_compat_r; lra.
Qed.

(** X5: interpolation leaves no gap.  After a tweened call of [addPoint]
    that interpolates between the new point [(x, y)] and the previous point
    [(lx, ly)], the steps between consecutive samples are no longer than the
    spacing [m], and every point of the segment between the two points is,
    in each coordinate, within [m / 2 + 1 / 2] of the previous point or of a
    point the call queued: half a step, plus the rounding. *)
Theorem tween_leaves_no_gap :
  forall (fuel : nat) (s : engine) (lx ly x y m : R),
    lastPoint s = Some (at_ lx ly) ->
    minPointDist s = Fin m ->
    0 < m ->
    m < euclid lx ly x y ->
    let d := euclid lx ly x y in
    let n := ceilZ (d / m) in
    (Z.to_nat (n - 1) <= fuel)%nat ->
    exists mids : list point,
      addPoint fuel (at_ x y) true s = Return tt (added mids (at_ x y) s) /\
      d / IZR n <= m /\
      forall t : R,
        0 <= t <= 1 ->
        exists qx qy : R,
          (at_ qx qy = at_ lx ly \/
           In (at_ qx qy) (mids ++ [rounded (at_ x y)])) /\
          Rabs (x + t * (lx - x) - qx) <= m / 2 + / 2 /\
          Rabs (y + t * (ly - y) - qy) <= m / 2 + / 2.
Proof.
  intros fuel s lx ly x y m Hlast Hmin Hm Hd d n Hfuel.
  pose proof (numSegments_ge_2 _ _ Hm Hd) as Hn. fold d n in Hn.
  assert (Hn' : 0 < IZR n) by (apply IZR_lt; lia).
  destruct (spacing_le d m Hm Hd) as [Hdn _]. fold n in Hdn.
  exists (tween_points lx ly x y n).
  split; [now apply addPoint_interpolates |]. split.
  { apply (Rmult_le_reg_r (IZR n)); [exact Hn' |].
    replace (d / IZR n * IZR n) with d by (field; lra). lra. }
  intros t Ht.
  pose proof (roundZ_spec (t * IZR n)) as Hi.
  set (i := roundZ (t * IZR n)) in *.
  assert (Htn : t * IZR n <= IZR n) by nra.
  assert (Htn0 : 0 <= t * IZR n) by nra.
  assert (Hi0 : (-1 < i)%Z) by (apply lt_IZR; lra).
  assert (Hin : (i < n + 1)%Z) by (apply lt_IZR; rewrite plus_IZR; lra).
  set (a := t - IZR i / IZR n).
  assert (Ha : - / 2 <= a * IZR n <= / 2).
  { replace (a * IZR n) with (t * IZR n - IZR i) by (unfold a; field; lra).
    lra. }
  pose proof (coordinate_gap a (lx - x) d (IZR n) m Hn' Ha
                (euclid_ge_dx lx ly x y) Hdn) as Gx.
  pose proof (coordinate_gap a (ly - y) d (IZR n) m Hn' Ha
                (euclid_ge_dy lx ly x y) Hdn) as Gy.
  assert (Ex : forall u v : R,
             v + t * (u - v) - (v + IZR i / IZR n * (u - v)) = a * (u - v))
    by (intros u v; unfold a; ring).
  assert (Hcase : (i = 0 \/ 1 <= i < n \/ i = n)%Z) by lia.
  destruct Hcase as [Hz | [Hmid | Hend]].
  - exists (IZR (roundZ x)), (IZR (roundZ y)). split.
    + right. apply in_or_app. right. left. reflexivity.
    + assert (Ea : a = t) by (unfold a; rewrite Hz; field; lra).
      rewrite Ea in Gx, Gy.
      pose proof (roundZ_gap x). pose proof (roundZ_gap y).
      split; apply Rabs_le; lra.
  - exists (IZR (roundZ (x + IZR i / IZR n * (lx - x)))),
           (IZR (roundZ (y + IZR i / IZR n * (ly - y)))).
    split.
    + right. apply in_or_app. left. unfold tween_points.
      apply in_map_iff. exists i. split; [reflexivity |].
      apply Zrange_In. lia.
    + pose proof (roundZ_gap (x + IZR i / IZR n * (lx - x))).
      pose proof (roundZ_gap (y + IZR i / IZR n * (ly - y))).
      pose proof (Ex lx x). pose proof (Ex ly y).
      split; apply Rabs_le; lra.
  - exists lx, ly. split; [now left |].
    assert (Ea : forall u v : R, v + t * (u - v) - u = a * (u - v)).
    { intros u v. unfold a. rewrite Hend. field. lra. }
    rewrite (Ea lx x), (Ea ly y). split; apply Rabs_le; lra.
Qed.

Lemma tween_leaves_no_gap_witness :
  exists mids : list point,
    addPoint 3 (at_ 30 0) true stroke0 =
    Return tt (added mids (at_ 30 0) stroke0) /\
    euclid 0 0 30 0 / IZR (ceilZ (euclid 0 0 30 0 / 10)) <= 10 /\
    forall t : R,
      0 <= t <= 1 ->
      exists qx qy : R,
        (at_ qx qy = at_ 0 0 \/
         In (at_ qx qy) (mids ++ [rounded (at_ 30 0)])) /\
        Rabs (30 + t * (0 - 30) - qx) <= 10 / 2 + / 2 /\
        Rabs (0 + t * (0 - 0) - qy) <= 10 / 2 + / 2.
Proof.
  apply (tween_leaves_no_gap 3%nat stroke0 0 0 30 0 10).
  - reflexivity.
  - exact stroke0_minPointDist.
  - lra.
  - rewrite stroke0_distance. lra.
  - replace (ceilZ (euclid 0 0 30 0 / 10)) with 3%Z.
    + simpl. lia.
    + symmetry. rewrite stroke0_distance. apply ceilZ_unique. lra.
Defined.

(** ** Edges of the arithmetic *)

(** X6: with a brush image of width 0 the spacing is 0, and a tweened call
    of [addPoint] for a point other than the previous one never returns:
    the segment count is [Infinity], and the loop runs for ever, whatever
    the fuel. *)
Theorem zero_width_brush_never_returns :
  forall (fuel : nat) (s : engine) (brush : canvas) (lx ly x y : R),
    brushCanvas s = Some brush ->
    width brush = O ->
    minPointDist s = (of_nat (width brush) / Fin 2)%js ->
    lastPoint s = Some (at_ lx ly) ->
    0 < euclid lx ly x y ->
    Math.ceil (distance (at_ lx ly) (at_ x y) / minPointDist s)%js =
    PosInfinity /\
    addPoint fuel (at_ x y) true s = Diverge.
Proof.
  intros fuel s brush lx ly x y _ Hw Hmin Hlast Hd.
  rewrite Hw, half_width in Hmin. cbn [INR] in Hmin.
  assert (E0 : Reqb (0 / 2) 0 = true) by (apply Reqb_true; lra).
  assert (Hceil : Math.ceil (distance (at_ lx ly) (at_ x y) / minPointDist s)%js
                  = PosInfinity).
  { rewrite distance_finite, Hmin. unfold div. rewrite E0.
    assert (E1 : Reqb (euclid lx ly x y) 0 = false) by (apply Reqb_false; lra).
    rewrite E1. cbn [sign].
    assert (E2 : Rltb (euclid lx ly x y) 0 = false) by (apply Rltb_false; lra).
    assert (E3 : Rltb 0 (euclid lx ly x y) = true) by (now apply Rltb_true).
    now rewrite E2, E3. }
  split; [exact Hceil |].
  apply (addPoint_diverges fuel (at_ x y) (at_ lx ly) s Hlast); [| exact Hceil].
  rewrite distance_finite, Hmin. apply Rltb_true. lra.
Qed.

Lemma zero_width_brush_never_returns_witness :
  Math.ceil (distance (at_ 0 0) (at_ 30 0) / minPointDist stroke_thin)%js =
  PosInfinity /\
  addPoint 1000 (at_ 30 0) true stroke_thin = Diverge.
Proof.
  apply (zero_width_brush_never_returns 1000 stroke_thin brush0 0 0 30 0);
    try reflexivity.
  rewrite stroke0_distance. lra.
Defined.



(** ** Edges of the reveal detector *)

(** X8: on an overlay of positive size whose buffer has four bytes per
    pixel, the loop of [testRevealed] counts at most as many pixels as the
    overlay has, so the percentage it compares with the threshold is a
    finite number between 0 and 100. *)
Theorem revealed_percentage_range :
  forall overlay : canvas,
    well_formed overlay ->
    (countVisible (data overlay) <= width overlay * height overlay)%nat /\
    exists r : R,
      revealedPercent (countVisible (data overlay))
        (of_nat (width overlay) * of_nat (height overlay))%js = Fin r /\
      0 <= r <= 100.
Proof.
  intros overlay (Hw & Hh & Hlen).
  assert (Hle : (countVisible (data overlay) <= width overlay * height overlay)%nat).
  { rewrite (countVisible_spec (width overlay * height overlay)) by exact Hlen.
    apply visiblePixels_le. }
  split; [exact Hle |].
  eexists. split; [now apply revealedPercent_finite |].
  assert (Ht : (0 < width overlay * height overlay)%nat) by nia.
  split; [now apply percent_nonneg |].
  pose proof (lt_0_INR _ Ht) as Ht'. apply le_INR in Hle.
  apply (Rmult_le_reg_r (/ 100)); [lra |].
  replace (INR (countVisible (data overlay)) /
           INR (width overlay * height overlay) * 100 * / 100)
    with (INR (countVisible (data overlay)) /
          INR (width overlay * height overlay)) by (field; lra).
  replace (100 * / 100) with 1 by lra.
  apply (Rmult_le_reg_r (INR (width overlay * height overlay))); [exact Ht' |].
  replace (INR (countVisible (data overlay)) /
           INR (width overlay * height overlay) *
           INR (width overlay * height overlay))
    with (INR (countVisible (data overlay))) by (field; lra).
  lra.
Qed.

Lemma revealed_percentage_range_witness :
  (countVisible (data overlay2) <= width overlay2 * height overlay2)%nat /\
  exists r : R,
    revealedPercent (countVisible (data overlay2))
      (of_nat (width overlay2) * of_nat (height overlay2))%js = Fin r /\
    0 <= r <= 100.
Proof.
  apply (revealed_percentage_range overlay2). exact overlay2_well_formed.
Defined.

(** X9: on an overlay of width or height 0, [getImageData] throws.  A call
    of [testRevealed] made before the flag went up throws and changes
    nothing; a pointer-up that closes a stroke calls the stroke-end hook
    and then throws.  The completion callback is not called, whatever the
    threshold. *)
Theorem empty_overlay_never_reveals :
  forall (s : engine) (overlay : canvas),
    overlayCanvas s = Some overlay ->
    width overlay = O \/ height overlay = O ->
    isRevealed s = false ->
    testRevealed s = Throw s /\
    (isPointerDown s = true ->
     forall ev : event,
       onPointerUp ev s = Throw (released s) /\
       trace (released s) = trace s ++ [PreventDefault; UpCallback] /\
       isRevealed (released s) = false).
Proof.
  intros s overlay Ho Hempty Hr.
  assert (Hcall : forall s0 : engine,
             overlayCanvas s0 = Some overlay -> isRevealed s0 = false ->
             testRevealed s0 = Throw s0).
  { intros s0 Ho0 Hr0. unfold testRevealed, bind, get, getImageData.
    rewrite Ho0, Hr0.
    destruct Hempty as [-> | ->]; [reflexivity |].
    destruct (width overlay); reflexivity. }
  split; [now apply Hcall |].
  intros Hdown ev. split; [| split].
  - rewrite onPointerUp_stroking by exact Hdown. now apply Hcall.
  - unfold released.
    cbn [trace set_trace set_offsetOrigin set_pointerOrigin set_lastPoint
         set_isPointerDown].
    now rewrite <- app_assoc.
  - exact Hr.
Qed.

Lemma empty_overlay_never_reveals_witness :
  testRevealed (set_overlayCanvas (Some overlay0) (armed (Fin 0))) =
  Throw (set_overlayCanvas (Some overlay0) (armed (Fin 0))).
Proof.
  apply (empty_overlay_never_reveals
           (set_overlayCanvas (Some overlay0) (armed (Fin 0))) overlay0);
    [reflexivity | left; reflexivity | reflexivity].
Defined.

(** ** Edges of the pointer handlers *)

(** X10: a pointer-down whose coordinates cannot be extracted throws with
    the stroke already opened.  When the event lists no touch on its
    target, or has no numeric [offsetX] and either an [originalEvent] with
    a numeric [layerX] (the handler then reads the misspelt
    [event.oritinalEvent]) or no first touch, [onPointerDown] throws after
    cancelling the event and setting [isPointerDown]: no point is queued
    and the stroke-start hook is not called.  The next pointer-up is then
    not ignored: it calls the stroke-end hook and runs the reveal
    detector. *)
Theorem onPointerDown_failed_extraction :
  forall (fuel : nat) (ev : event) (s : engine),
    (pointOf ev = None ->
     onPointerDown fuel ev s = Throw (opened s)) /\
    (forall p : point,
        pointOf ev = Some p ->
        offset ev = None ->
        originalEvent_layerX ev = true \/ touches ev = [] ->
        onPointerDown fuel ev s = Throw (set_pointerOrigin p (opened s))) /\
    (forall s' : engine,
        onPointerDown fuel ev s = Throw s' ->
        isPointerDown s' = true /\
        paintQueue s' = paintQueue s /\
        lastPoint s' = lastPoint s /\
        trace s' = trace s ++ [PreventDefault] /\
        forall up : event,
          onPointerUp up s' = testRevealed (released s') /\
          trace (released s') =
          trace s ++ [PreventDefault; PreventDefault; UpCallback]).
Proof.
  intros fuel ev s.
  assert (Hshape : onPointerDown fuel ev s =
                   match pointOf ev with
                   | None => Throw (opened s)
                   | Some p =>
                       match offsetPointOf (layout s) ev with
                       | None => Throw (set_pointerOrigin p (opened s))
                       | Some o => Return tt (pressed p o s)
                       end
                   end).
  { destruct (pointOf ev) as [p |] eqn:Hp.
    - destruct (offsetPointOf (layout s) ev) as [o |] eqn:Ho.
      + now apply onPointerDown_pressed.
      + unfold onPointerDown, cancelEvent, bind at 1 2.
        cbv [emit assign]. unfold bind at 1.
        rewrite getPointFromEvent_pointOf, Hp. unfold bind at 1.
        cbv [assign]. unfold bind at 1.
        rewrite getOffsetPointFromEvent_offsetPointOf.
        cbn [layout set_pointerOrigin set_isPointerDown set_trace].
        now rewrite Ho.
    - unfold onPointerDown, cancelEvent, bind at 1 2.
      cbv [emit assign]. unfold bind at 1.
      now rewrite getPointFromEvent_pointOf, Hp. }
  split; [| split].
  - intros Hp. now rewrite Hshape, Hp.
  - intros p Hp Hoff Hbad. rewrite Hshape, Hp.
    assert (Ho : offsetPointOf (layout s) ev = None).
    { unfold offsetPointOf. rewrite Hoff.
      destruct Hbad as [-> | ->]; [reflexivity |].
      now destruct (originalEvent_layerX ev). }
    now rewrite Ho.
  - intros s' H. rewrite Hshape in H.
    assert (Hs : s' = opened s \/
                 exists p, s' = set_pointerOrigin p (opened s)).
    { destruct (pointOf ev) as [p |].
      - destruct (offsetPointOf (layout s) ev); [discriminate |].
        right. exists p. congruence.
      - left. congruence. }
    assert (Hup : forall s1 : engine,
               isPointerDown s1 = true ->
               trace s1 = trace s ++ [PreventDefault] ->
               forall up : event,
                 onPointerUp up s1 = testRevealed (released s1) /\
                 trace (released s1) =
                 trace s ++ [PreventDefault; PreventDefault; UpCallback]).
    { intros s1 Hd Ht up. split; [now apply onPointerUp_stroking |].
      unfold released.
      cbn [trace set_trace set_offsetOrigin set_pointerOrigin set_lastPoint
           set_isPointerDown].
      rewrite Ht, <- !app_assoc. reflexivity. }
    destruct Hs as [-> | [p ->]]; repeat split; now apply Hup.
Qed.

Lemma onPointerDown_failed_extraction_witness :
  onPointerDown 0 touch_empty stroke0 = Throw (opened stroke0) /\
  onPointerDown 0 wrapped0 stroke0 =
  Throw (set_pointerOrigin (at_ 5 5) (opened stroke0)).
Proof.
  split.
  - apply (proj1 (onPointerDown_failed_extraction 0 touch_empty stroke0)).
    reflexivity.
  - apply (proj1 (proj2 (onPointerDown_failed_extraction 0 wrapped0 stroke0))
             (at_ 5 5)); [reflexivity | reflexivity | left; reflexivity].
Defined.

(** ** Construction *)

Lemma construct_invalid (arguments : list jsvalue) (s : engine) :
  valid arguments = false -> construct arguments s = Throw s.
Proof.
  unfold valid, construct. cbv zeta.
  destruct (isDomElement (nth 0 arguments JSUndefined)); cbn [andb negb];
    [| reflexivity].
  destruct (3 <? List.length arguments)%nat; [| discriminate].
  destruct (isFunction (nth 3 arguments JSUndefined)); cbn [negb];
    [discriminate | reflexivity].
Qed.

Lemma construct_valid (arguments : list jsvalue) (pg : page) :
  valid arguments = true ->
  construct arguments (initial pg) = Return tt (constructed arguments pg).
Proof.
  unfold valid, construct, constructed. cbv zeta.
  generalize (threshold_of arguments). intros th.
  destruct (isDomElement (nth 0 arguments JSUndefined)); cbn [andb negb];
    [| discriminate].
  intros Hf.
  assert (Hc : isFunction (if (3 <? List.length arguments)%nat
                           then nth 3 arguments JSUndefined
                           else JSFunction) = true).
  { destruct (3 <? List.length arguments)%nat; [exact Hf | reflexivity]. }
  rewrite Hc. cbn [negb]. destruct pg as [pw cl ct hpe].
  destruct (nth 1 arguments JSUndefined), (nth 2 arguments JSUndefined);
    reflexivity.
Qed.

(** X11: [construct] throws, before it stores the threshold or starts a
    load, exactly when the parent is not a DOM element or a callback is
    passed that is not a function.  Otherwise it returns: the clamped
    threshold is stored, a load is started for each URL that is a string,
    the overlay's before the brush's, each other load is settled at once
    as failed, and the failure is logged during construction only when
    neither URL is a string. *)
Theorem construct_validates_then_loads :
  forall (arguments : list jsvalue),
    (valid arguments = false ->
     forall s : engine, construct arguments s = Throw s) /\
    (valid arguments = true ->
     forall pg : page,
       construct arguments (initial pg) = Return tt (constructed arguments pg)).
Proof.
  intros arguments. split.
  - intros H s. now apply construct_invalid.
  - intros H pg. now apply construct_valid.
Qed.

Lemma construct_validates_then_loads_witness :
  construct arguments_detached (initial page0) = Throw (initial page0) /\
  construct arguments_nourl (initial page0) =
  Return tt (constructed arguments_nourl page0).
Proof.
  split.
  - apply (proj1 (construct_validates_then_loads arguments_detached)).
    reflexivity.
  - apply (proj2 (construct_validates_then_loads arguments_nourl)).
    reflexivity.
Defined.

(** X12: an engine constructed with a URL that is not a string never
    becomes ready.  Whatever the load of the other image gives, when it
    settles the engine logs the failure and does nothing else: no listener
    is attached, no frame is requested and the ready hook is not called.
    When neither URL is a string the failure is logged by [construct]
    itself. *)
Theorem missing_url_never_ready :
  forall (arguments : list jsvalue) (pg : page) (s0 : engine)
         (c : option canvas),
    construct arguments (initial pg) = Return tt s0 ->
    let overlayUrl := nth 1 arguments JSUndefined in
    let brushUrl := nth 2 arguments JSUndefined in
    (isString overlayUrl = false -> isString brushUrl = true ->
     brushSettled c s0 =
     Return tt (set_trace (loads brushUrl ++ [ConsoleError])
                  (set_brushCanvas c (set_brushLoaded true s0)))) /\
    (isString overlayUrl = true -> isString brushUrl = false ->
     overlaySettled c s0 =
     Return tt (set_trace (loads overlayUrl ++ [ConsoleError])
                  (set_overlayCanvas c (set_overlayLoaded true s0)))) /\
    (isString overlayUrl = false -> isString brushUrl = false ->
     trace s0 = [ConsoleError] /\
     overlayCanvas s0 = None /\ brushCanvas s0 = None).
Proof.
  intros arguments pg s0 c H.
  assert (Hs : s0 = constructed arguments pg).
  { destruct (valid arguments) eqn:V.
    - rewrite (construct_valid arguments pg V) in H. congruence.
    - rewrite (construct_invalid arguments (initial pg) V) in H.
      discriminate. }
  subst s0. clear H. destruct pg as [pw cl ct hpe].
  unfold constructed. cbv zeta.
  generalize (threshold_of arguments). intros th.
  destruct (nth 1 arguments JSUndefined), (nth 2 arguments JSUndefined);
    cbn [isString]; (split; [| split]); intros; try discriminate;
    try (split; [reflexivity | split; reflexivity]);
    destruct c; reflexivity.
Qed.

Lemma missing_url_never_ready_witness :
  brushSettled (Some brush20) (constructed arguments_nourl page0) =
  Return tt (set_trace (loads (JSString "brush.png" NaN) ++ [ConsoleError])
               (set_brushCanvas (Some brush20)
                  (set_brushLoaded true (constructed arguments_nourl page0)))).
Proof.
  apply (proj1 (missing_url_never_ready arguments_nourl page0
                  (constructed arguments_nourl page0) (Some brush20)
                  eq_refl)); reflexivity.
Defined.

(** ** From the displayed canvas to the bitmap *)

Lemma roundZ_monotone (a b : R) : a <= b -> (roundZ a <= roundZ b)%Z.
Proof.
  intros H. pose proof (roundZ_spec a) as Ha. pose proof (roundZ_spec b) as Hb.
  assert (Hlt : IZR (roundZ a) < IZR (roundZ b) + 1) by lra.
  rewrite <- plus_IZR in Hlt. apply lt_IZR in Hlt. lia.
Qed.

Lemma roundZ_INR (n : nat) : roundZ (INR n) = Z.of_nat n.
Proof. rewrite INR_IZR_INZ. apply roundZ_IZR. Qed.

Lemma scaled_in_range (x w : R) (W : nat) :
  0 < w -> (0 < W)%nat -> 0 <= x <= w ->
  (0 <= roundZ (x * (1 / (w / INR W))) <= Z.of_nat W)%Z.
Proof.
  intros Hw HW Hx. apply lt_0_INR in HW.
  assert (E : x * (1 / (w / INR W)) = x / w * INR W) by (field; lra).
  rewrite E.
  assert (H1 : 0 <= x / w <= 1).
  { split.
    - apply Rmult_le_pos; [lra |]. apply Rlt_le, Rinv_0_lt_compat, Hw.
    - apply (Rmult_le_reg_r w); [exact Hw |].
      replace (x / w * w) with x by (field; lra). lra. }
  split.
  - change 0%Z with (Z.of_nat 0). rewrite <- (roundZ_INR 0).
    apply roundZ_monotone. cbn [INR]. apply Rmult_le_pos; lra.
  - rewrite <- (roundZ_INR W). apply roundZ_monotone. nra.
Qed.

(** X13: after a resize, a pointer-down inside the displayed canvas queues
    a point of the bitmap.  With the parent [w > 0] pixels wide and the
    overlay [W > 0] by [H] pixels, displayed with its aspect ratio, a
    pointer-down at offset [(x, y)] with [0 <= x <= w] and
    [0 <= y <= w * H / W] queues one point with whole coordinates [(X, Y)],
    [0 <= X <= W] and [0 <= Y <= H]. *)
Theorem pointer_down_lands_on_overlay :
  forall (fuel : nat) (s : engine) (overlay : canvas) (ev : event)
         (p : point) (w x y : R),
    overlayCanvas s = Some overlay ->
    parentWidth (layout s) = Fin w ->
    0 < w ->
    (0 < width overlay)%nat ->
    pointOf ev = Some p ->
    offset ev = Some (at_ x y) ->
    0 <= x <= w ->
    0 <= y <= w * INR (height overlay) / INR (width overlay) ->
    exists (s1 s2 : engine) (X Y : Z),
      onResize s = Return tt s1 /\
      onPointerDown fuel ev s1 = Return tt s2 /\
      paintQueue s2 = paintQueue s ++ [{| px := of_Z X; py := of_Z Y |}] /\
      (0 <= X <= Z.of_nat (width overlay))%Z /\
      (0 <= Y <= Z.of_nat (height overlay))%Z.
Proof.
  intros fuel s overlay ev p w x y Ho Hpw Hw HW Hp Hoff Hx Hy.
  pose proof (lt_0_INR _ HW) as HW'.
  set (k := 1 / (w / INR (width overlay))).
  assert (Hscale : (Fin 1 / (parentWidth (layout s) / of_nat (width overlay)))%js
                   = Fin k).
  { rewrite Hpw. unfold of_nat. rewrite div_finite by lra.
    rewrite div_finite; [reflexivity |].
    apply Rgt_not_eq. apply Rdiv_lt_0_compat; lra. }
  exists (set_scale (Fin k) s), (pressed p (at_ x y) (set_scale (Fin k) s)),
    (roundZ (x * k)), (roundZ (y * k)).
  split; [| split; [| split; [| split]]].
  - unfold onResize, bind, get, assign. rewrite Ho, Hscale. reflexivity.
  - apply onPointerDown_pressed; [exact Hp |].
    unfold offsetPointOf. now rewrite Hoff.
  - destruct s. reflexivity.
  - now apply scaled_in_range.
  - assert (E : y * k = y * INR (width overlay) / w) by (unfold k; field; lra).
    rewrite E.
    assert (Hy' : 0 <= y * INR (width overlay) / w <= INR (height overlay)).
    { destruct Hy as [Hy0 Hy1]. split.
      - apply Rmult_le_pos; [nra |]. apply Rlt_le, Rinv_0_lt_compat, Hw.
      - apply (Rmult_le_reg_r w); [exact Hw |].
        replace (y * INR (width overlay) / w * w)
          with (y * INR (width overlay)) by (field; lra).
        apply (Rmult_le_compat_r (INR (width overlay))) in Hy1; [| lra].
        replace (w * INR (height overlay) / INR (width overlay) *
                 INR (width overlay))
          with (w * INR (height overlay)) in Hy1 by (field; lra).
        lra. }
    split.
    + change 0%Z with (Z.of_nat 0). rewrite <- (roundZ_INR 0).
      apply roundZ_monotone. cbn [INR]. lra.
    + rewrite <- (roundZ_INR (height overlay)). apply roundZ_monotone. lra.
Qed.

Lemma pointer_down_lands_on_overlay_witness :
  exists (s1 s2 : engine) (X Y : Z),
    onResize resized0 = Return tt s1 /\
    onPointerDown 0 down_corner s1 = Return tt s2 /\
    paintQueue s2 = paintQueue resized0 ++ [{| px := of_Z X; py := of_Z Y |}] /\
    (0 <= X <= Z.of_nat (width overlay200))%Z /\
    (0 <= Y <= Z.of_nat (height overlay200))%Z.
Proof.
  apply (pointer_down_lands_on_overlay 0 resized0 overlay200 down_corner
           (at_ 810 410) 800 800 400);
    try reflexivity; try lra; try (cbn; lia).
  cbn [overlay200 width height]. rewrite !INR_IZR_INZ. cbn [Z.of_nat].
  cbn. lra.
Defined.

(** ** A stroke that does not move *)

Lemma rounding_distance (u v : R) :
  euclid (IZR (roundZ u)) (IZR (roundZ v)) u v < 1.
Proof.
  unfold euclid.
  pose proof (roundZ_gap u) as Hu. pose proof (roundZ_gap v) as Hv.
  rewrite <- sqrt_1. apply sqrt_lt_1_alt. split.
  - apply Rplus_le_le_0_compat; apply Rle_0_sqr.
  - nra.
Qed.

(** X14: the queue is not deduplicated.  With a brush at least two pixels
    wide ([minPointDist >= 1]), a pointer-down followed by a pointer-move
    that reports the same screen position queues the first point of the
    stroke twice: the move is within the spacing of the rounded first
    point, so nothing is interpolated, and the same rounded coordinates are
    pushed again. *)
Theorem stationary_move_repeats_the_point :
  forall (fuel : nat) (s : engine) (ev ev' : event) (cx cy x y k m : R),
    pointOf ev = Some (at_ cx cy) ->
    offsetPointOf (layout s) ev = Some (at_ x y) ->
    pointOf ev' = Some (at_ cx cy) ->
    scale s = Fin k ->
    minPointDist s = Fin m ->
    1 <= m ->
    let first :=
      {| px := of_Z (roundZ (x * k)); py := of_Z (roundZ (y * k)) |} in
    exists s1 s2 : engine,
      onPointerDown fuel ev s = Return tt s1 /\
      onPointerMove fuel ev' s1 = Return tt s2 /\
      paintQueue s2 = paintQueue s ++ [first; first] /\
      lastPoint s2 = Some first /\
      trace s2 = trace s ++ [PreventDefault; DownCallback; PreventDefault].
Proof.
  intros fuel s ev ev' cx cy x y k m Hp Ho Hp' Hk Hm Hm1 first.
  exists (pressed (at_ cx cy) (at_ x y) s).
  eexists. split; [now apply onPointerDown_pressed |].
  unfold onPointerMove, cancelEvent. unfold bind at 1, get at 1.
  cbn [pressed isPointerDown set_trace set_paintQueue set_lastPoint
       set_offsetOrigin set_pointerOrigin set_isPointerDown negb].
  unfold bind at 1. cbv [emit assign]. unfold bind at 1.
  rewrite getPointFromEvent_pointOf, Hp'.
  cbv [bind get]. unfold pressed. cbv zeta.
  cbn [offsetOrigin pointerOrigin scale set_trace set_paintQueue set_lastPoint
       set_offsetOrigin set_pointerOrigin set_isPointerDown at_ px py].
  rewrite Hk. cbn [sub neg add mul rounded Math.round px py].
  assert (Ex : (x + (cx + - cx)) * k = x * k) by ring.
  assert (Ey : (y + (cy + - cy)) * k = y * k) by ring.
  rewrite Ex, Ey.
  rewrite addPoint_untweened.
  2:{ right; right. eexists. split; [reflexivity |].
      cbn [minPointDist set_trace set_paintQueue set_lastPoint
           set_offsetOrigin set_pointerOrigin set_isPointerDown].
      rewrite Hm.
      change (distance (rounded _) _)
        with (distance (at_ (IZR (roundZ (x * k))) (IZR (roundZ (y * k))))
                (at_ (x * k) (y * k))).
      rewrite distance_finite. unfold gt, lt. apply Rltb_false.
      pose proof (rounding_distance (x * k) (y * k)). lra. }
  split; [reflexivity |].
  destruct s. cbn. rewrite <- !app_assoc. repeat split.
Qed.

Lemma stationary_move_repeats_the_point_witness :
  exists s1 s2 : engine,
    onPointerDown 0 down0 stroke0 = Return tt s1 /\
    onPointerMove 0 move_same s1 = Return tt s2 /\
    paintQueue s2 =
    paintQueue stroke0 ++
    [{| px := of_Z (roundZ (1 * 1)); py := of_Z (roundZ (0 * 1)) |};
     {| px := of_Z (roundZ (1 * 1)); py := of_Z (roundZ (0 * 1)) |}] /\
    lastPoint s2 =
    Some {| px := of_Z (roundZ (1 * 1)); py := of_Z (roundZ (0 * 1)) |} /\
    trace s2 = trace stroke0 ++ [PreventDefault; DownCallback; PreventDefault].
Proof.
  apply (stationary_move_repeats_the_point 0 stroke0 down0 move_same
           5 5 1 0 1 10);
    [reflexivity | reflexivity | reflexivity | reflexivity
    | exact stroke0_minPointDist | lra].
Defined.

(** ** Fitting the parent element *)

(** X15: [resizeParentEl] gives the parent element the proportions of the
    image only when it fits the width.  For an image of [w] by [h] pixels
    in a body of [pw] by [ph], all positive: when [pw / w <= ph / h] the
    element is [pw] wide and [pw * h / w] high, which has the image's
    ratio and is no higher than the body.  Otherwise it is [ph] high and
    [ph * h / w] wide: the width is to the height as the image's height is
    to its width, so the image's ratio is kept only for a square image,
    and the element is no wider than the body only when
    [ph * h <= pw * w]. *)
Theorem resizeParentEl_keeps_ratio_when_fitting_width :
  forall w h pw ph : R,
    0 < w -> 0 < h -> 0 < pw -> 0 < ph ->
    exists sw sh : R,
      resizeParentEl (Fin w) (Fin h) (Fin pw) (Fin ph) =
      {| style_width := Fin sw; style_height := Fin sh |} /\
      0 < sw /\ 0 < sh /\
      (pw / w <= ph / h ->
       sw = pw /\ sh <= ph /\ sh / sw = h / w) /\
      (ph / h < pw / w ->
       sh = ph /\ sw / sh = h / w /\
       (sh / sw = h / w <-> w = h) /\
       (sw <= pw <-> ph * h <= pw * w)).
Proof.
  intros w h pw ph Hw Hh Hpw Hph.
  unfold resizeParentEl. cbv zeta.
  rewrite !div_finite by lra. cbn [mul lt].
  assert (Hiw : 0 < / w) by now apply Rinv_0_lt_compat.
  assert (Hih : 0 < / h) by now apply Rinv_0_lt_compat.
  assert (Hr : 0 < h / w) by (apply Rdiv_lt_0_compat; lra).
  destruct (Rlt_dec (ph / h) (pw / w)) as [Hlt | Hge].
  - apply Rltb_true in Hlt as Hb. rewrite Hb.
    exists (ph * (h / w)), ph. split; [reflexivity |].
    split; [nra |]. split; [lra |]. split; [intros; lra |].
    intros _. split; [reflexivity |]. split; [field; lra |]. split.
    + split.
      * intros E.
        assert (E' : w * w = h * h).
        { assert (Es : ph / (ph * (h / w)) = w / h) by (field; lra).
          rewrite Es in E.
          apply (f_equal (fun t => t * (w * h))) in E.
          replace (w / h * (w * h)) with (w * w) in E by (field; lra).
          replace (h / w * (w * h)) with (h * h) in E by (field; lra).
          exact E. }
        nra.
      * intros ->. field. lra.
    + split; intros H.
      * apply (Rmult_le_compat_r w) in H; [| lra].
        replace (ph * (h / w) * w) with (ph * h) in H by (field; lra). lra.
      * apply (Rmult_le_reg_r w); [lra |].
        replace (ph * (h / w) * w) with (ph * h) by (field; lra). lra.
  - apply Rnot_lt_le in Hge. apply Rltb_false in Hge as Hb. rewrite Hb.
    exists pw, (pw * (h / w)). split; [reflexivity |].
    split; [lra |]. split; [nra |]. split; [| intros; lra].
    intros _. split; [reflexivity |]. split; [| field; lra].
    apply (Rmult_le_compat_r h) in Hge; [| lra].
    replace (ph / h * h) with ph in Hge by (field; lra).
    replace (pw * (h / w)) with (pw / w * h) by (field; lra). exact Hge.
Qed.

Lemma resizeParentEl_keeps_ratio_when_fitting_width_witness :
  exists sw sh : R,
    resizeParentEl (Fin 100) (Fin 400) (Fin 1000) (Fin 400) =
    {| style_width := Fin sw; style_height := Fin sh |} /\
    0 < sw /\ 0 < sh /\
    (1000 / 100 <= 400 / 400 ->
     sw = 1000 /\ sh <= 400 /\ sh / sw = 400 / 100) /\
    (400 / 400 < 1000 / 100 ->
     sh = 400 /\ sw / sh = 400 / 100 /\
     (sh / sw = 400 / 100 <-> 100 = 400) /\
     (sw <= 1000 <-> 400 * 400 <= 1000 * 100)).
Proof.
  apply (resizeParentEl_keeps_ratio_when_fitting_width 100 400 1000 400); lra.
Defined.

(** ** Debounce *)

Lemma debounce_single_timer {A : Type} (immediate : bool) (args : A)
    (d : debouncer A) :
  single_timer d ->
  timeout (debounce immediate args d) = Some (nextId d) /\
  timers (debounce immediate args d) = [(nextId d, args)].
Proof.
  unfold single_timer, debounce. cbn [timeout timers].
  destruct (timeout d) as [id |]; cbn [clearTimeout].
  - intros [a ->]. cbn [filter fst]. rewrite Nat.eqb_refl. now cbn.
  - intros ->. now cbn.
Qed.

Lemma debounce_keeps_single_timer {A : Type} (immediate : bool) (args : A)
    (d : debouncer A) :
  single_timer d -> single_timer (debounce immediate args d).
Proof.
  intros H. destruct (debounce_single_timer immediate args d H) as [H1 H2].
  unfold single_timer. rewrite H1. now exists args.
Qed.

Lemma expire_single_timer {A : Type} (immediate : bool) (id : nat)
    (d : debouncer A) :
  single_timer d -> single_timer (expire immediate id d).
Proof.
  unfold single_timer, expire. intros H.
  destruct (timeout d) as [id0 |] eqn:E.
  - destruct H as [a Ha]. rewrite Ha. cbn [find fst].
    destruct (id0 =? id)%nat eqn:Eq.
    + cbn [later timeout timers clearTimeout filter fst]. now rewrite Eq.
    + rewrite E. now exists a.
  - rewrite H. cbn [find]. now rewrite E.
Qed.

Lemma ticks_single_timer {A : Type} (immediate : bool) (ts : list (tick A)) :
  forall d : debouncer A,
    single_timer d -> single_timer (ticks immediate ts d).
Proof.
  induction ts as [| t ts IH]; intros d H; [exact H |].
  cbn [ticks fold_left]. apply IH. destruct t as [args | id].
  - now apply debounce_keeps_single_timer.
  - now apply expire_single_timer.
Qed.

(** Calls that find a timer pending call nothing, in either mode, and
    leave the timer of the last call pending. *)
Lemma burst_while_pending {A : Type} (immediate : bool) (burst : list A) :
  forall (d : debouncer A) (a : A),
    single_timer d ->
    immediate = false \/ (exists id : nat, timeout d = Some id) ->
    let d' := ticks immediate (map Call (burst ++ [a])) d in
    calls d' = calls d /\
    exists id : nat, timeout d' = Some id /\ timers d' = [(id, a)].
Proof.
  induction burst as [| b burst IH]; intros d a H Hq.
  - cbn [app map ticks fold_left tick_step].
    destruct (debounce_single_timer immediate a d H) as [H1 H2].
    split; [| now exists (nextId d)].
    unfold debounce. cbn [calls].
    destruct Hq as [-> | [id0 ->]]; [reflexivity |].
    now rewrite andb_false_r.
  - cbn [app map ticks fold_left tick_step].
    destruct (debounce_single_timer immediate b d H) as [H1 H2].
    destruct (IH (debounce immediate b d) a
                (debounce_keeps_single_timer immediate b d H)
                (or_intror (ex_intro _ _ H1))) as [Hc Ht].
    split; [| exact Ht]. unfold ticks in Hc. rewrite Hc.
    unfold debounce. cbn [calls].
    destruct Hq as [-> | [id0 ->]]; [reflexivity |].
    now rewrite andb_false_r.
Qed.

Lemma expire_pending {A : Type} (immediate : bool) (id : nat) (a : A)
    (d : debouncer A) :
  timers d = [(id, a)] ->
  timeout (expire immediate id d) = None /\
  timers (expire immediate id d) = [] /\
  calls (expire immediate id d) =
  if immediate then calls d else calls d ++ [a].
Proof.
  intros H. unfold expire. rewrite H. cbn [find fst].
  rewrite Nat.eqb_refl.
  cbn [later timeout timers calls clearTimeout filter fst].
  rewrite Nat.eqb_refl. cbn [negb]. destruct immediate; repeat split.
Qed.

(** X16: a debounced function keeps at most one timer pending, and a burst
    of calls collapses into one call of [func].  Whatever calls and expiries
    came before, after a burst of calls ending with arguments [a] exactly
    one timer is pending, that of the last call.  In the trailing mode
    ([immediate] false, as for the resize listener) the burst calls nothing
    and the expiry of that timer calls [func] once, with [a].  In the
    leading mode the expiry calls nothing, and the burst called [func] once,
    with the arguments of its first call, if no timer was pending when it
    began, and not at all otherwise. *)
Theorem debounce_collapses_a_burst :
  forall (A : Type) (immediate : bool) (history : list (tick A))
         (burst : list A) (a : A),
    let d := ticks immediate history (created A) in
    let d' := ticks immediate (map Call (burst ++ [a])) d in
    single_timer d /\
    exists id : nat,
      timeout d' = Some id /\
      timers d' = [(id, a)] /\
      timeout (expire immediate id d') = None /\
      timers (expire immediate id d') = [] /\
      (immediate = false ->
       calls d' = calls d /\
       calls (expire immediate id d') = calls d ++ [a]) /\
      (immediate = true ->
       calls (expire immediate id d') = calls d' /\
       calls d' =
       match timeout d with
       | None => calls d ++ [hd a burst]
       | Some _ => calls d
       end).
Proof.
  intros A immediate history burst a d d'.
  assert (Hd : single_timer d) by (apply ticks_single_timer; reflexivity).
  split; [exact Hd |].
  assert (Hfirst : forall b : A,
             timeout d = None ->
             calls (debounce true b d) = calls d ++ [b]).
  { intros b E. unfold debounce. cbn [calls]. now rewrite E. }
  assert (Hlast : exists id : nat,
             timeout d' = Some id /\ timers d' = [(id, a)]).
  { destruct immediate.
    - destruct (timeout d) as [id0 |] eqn:E.
      + now destruct (burst_while_pending true burst d a Hd
                        (or_intror (ex_intro _ _ E))) as [_ H].
      + destruct burst as [| b burst].
        * destruct (debounce_single_timer true a d Hd) as [H1 H2].
          now exists (nextId d).
        * destruct (debounce_single_timer true b d Hd) as [H1 H2].
          now destruct (burst_while_pending true burst (debounce true b d) a
                          (debounce_keeps_single_timer true b d Hd)
                          (or_intror (ex_intro _ _ H1))) as [_ H3].
    - now destruct (burst_while_pending false burst d a Hd
                      (or_introl eq_refl)) as [_ H]. }
  destruct Hlast as (id & Hid & Ht). exists id.
  destruct (expire_pending immediate id a d' Ht) as (E1 & E2 & E3).
  split; [exact Hid |]. split; [exact Ht |]. split; [exact E1 |].
  split; [exact E2 |]. split.
  - intros Hi. subst immediate.
    destruct (burst_while_pending false burst d a Hd (or_introl eq_refl))
      as [Hc _].
    split; [exact Hc |]. rewrite E3. fold d' in Hc. now rewrite Hc.
  - intros Hi. subst immediate. split; [exact E3 |].
    destruct (timeout d) as [id0 |] eqn:E.
    + now destruct (burst_while_pending true burst d a Hd
                      (or_intror (ex_intro _ _ E))) as [Hc _].
    + destruct burst as [| b burst].
      * subst d'. cbn [app map ticks fold_left tick_step hd].
        now apply Hfirst.
      * destruct (debounce_single_timer true b d Hd) as [H1 H2].
        destruct (burst_while_pending true burst (debounce true b d) a
                    (debounce_keeps_single_timer true b d Hd)
                    (or_intror (ex_intro _ _ H1))) as [Hc _].
        subst d'. cbn [app map ticks fold_left tick_step hd].
        unfold ticks in Hc. rewrite Hc. now apply Hfirst.
Qed.

Lemma debounce_collapses_a_burst_witness :
  calls (expire false 3
           (ticks false (map Call ([1; 2] ++ [3]))%nat (created nat))) =
  [3%nat].
Proof.
  destruct (debounce_collapses_a_burst nat false [] [1; 2]%nat 3%nat)
    as (_ & id & _ & _ & _ & _ & H & _).
  destruct (H eq_refl) as [_ H']. reflexivity.
Defined.

(** ** The host component *)

Lemma argument_firstn {V : Type} (k n : nat) (arguments : list V) :
  (k < n)%nat -> argument k (firstn n arguments) = argument k arguments.
Proof.
  intros H. unfold argument.
  rewrite nth_error_firstn, length_firstn.
  destruct (Nat.ltb_spec k n) as [_ | Hn]; [| lia].
  destruct (Nat.ltb_spec k (List.length arguments)) as [Hk | Hk];
    destruct (Nat.ltb_spec k (Nat.min n (List.length arguments)));
    (reflexivity || lia).
Qed.

Lemma sent_app (h : hooks hostvalue) (t u : list effect) :
  sent h (t ++ u) = sent h t ++ sent h u.
Proof. apply flat_map_app. Qed.

(** X17: the engine reads its observer hooks from the sixth, seventh and
    eighth arguments and never looks at a ninth, while the host passes
    [properties.brushSize] sixth and its three senders after it.  So
    through the host: becoming ready sends no message, every pointer-down
    that is handled sends ['onLoaded'], every release of a stroke sends
    ['onStartScratching'] (followed by the two messages of [reveal] when
    the threshold is reached then), and ['onEndScratching'] is never
    sent, whatever the engine does. *)
Theorem host_messages_are_shifted :
  (forall (V : Type) (arguments : list V),
      hooks_of arguments = hooks_of (firstn 8 arguments)) /\
  (forall t : list effect,
      ~ In (Named "onEndScratching") (sent (hooks_of myInit_arguments) t)) /\
  (forall (fuel : nat) (ev : event) (s : engine) (p o : point),
      pointOf ev = Some p ->
      offsetPointOf (layout s) ev = Some o ->
      exists s' : engine,
        onPointerDown fuel ev s = Return tt s' /\
        sent (hooks_of myInit_arguments) (trace s') =
        sent (hooks_of myInit_arguments) (trace s) ++ [Named "onLoaded"]) /\
  (forall (ev : event) (s s' : engine),
      isPointerDown s = true ->
      final (onPointerUp ev s) = Some s' ->
      exists rest : list message,
        sent (hooks_of myInit_arguments) (trace s') =
        sent (hooks_of myInit_arguments) (trace s) ++
        Named "onStartScratching" :: rest /\
        (rest = [] \/ rest = [UPDATED; Named "revealed"])) /\
  (forall (s : engine) (overlay brush : canvas),
      sent (hooks_of myInit_arguments) (trace (ready overlay brush s)) =
      sent (hooks_of myInit_arguments) (trace s)).
Proof.
  split; [| split; [| split; [| split]]].
  - intros V arguments. unfold hooks_of.
    now rewrite !argument_firstn by lia.
  - intros t. induction t as [| e t IH]; [intros [] |].
    change (sent (hooks_of myInit_arguments) (e :: t))
      with (sends (callee (hooks_of myInit_arguments) e) ++
            sent (hooks_of myInit_arguments) t).
    intros H. apply in_app_or in H. destruct H as [H | H]; [| now apply IH].
    destruct e; cbn in H; intuition discriminate.
  - intros fuel ev s p o Hp Ho. exists (pressed p o s).
    split; [now apply onPointerDown_pressed |].
    unfold pressed. cbn [trace set_trace]. rewrite sent_app. reflexivity.
  - intros ev s s' Hd H. rewrite onPointerUp_stroking in H by exact Hd.
    assert (Hr : sent (hooks_of myInit_arguments) (trace (released s)) =
                 sent (hooks_of myInit_arguments) (trace s) ++
                 [Named "onStartScratching"]).
    { unfold released.
      cbn [trace set_trace set_offsetOrigin set_pointerOrigin set_lastPoint
           set_isPointerDown].
      rewrite !sent_app, <- app_assoc. reflexivity. }
    apply testRevealed_outcomes in H. destruct H as [-> | [-> | ->]].
    + exists []. split; [exact Hr | now left].
    + exists []. split; [| now left].
      unfold unfired. cbn [trace set_trace].
      rewrite sent_app, Hr, <- app_assoc. reflexivity.
    + exists [UPDATED; Named "revealed"]. split; [| now right].
      unfold fired. cbn [trace set_trace set_isRevealed].
      rewrite sent_app, Hr, <- app_assoc. reflexivity.
  - intros s overlay brush. unfold ready.
    cbn [trace set_trace set_scale set_minPointDist
         set_globalCompositeOperation settled set_brushCanvas set_brushLoaded
         set_overlayCanvas set_overlayLoaded layout].
    rewrite sent_app.
    assert (E : sent (hooks_of myInit_arguments) (initialisation (layout s))
                = []).
    { unfold initialisation, listeners.
      destruct (hasPointerEvent (layout s)); reflexivity. }
    rewrite E. apply app_nil_r.
Qed.

Lemma host_messages_are_shifted_witness :
  exists s' : engine,
    onPointerDown 0 down0 stroke0 = Return tt s' /\
    sent (hooks_of myInit_arguments) (trace s') =
    sent (hooks_of myInit_arguments) (trace stroke0) ++ [Named "onLoaded"].
Proof.
  apply (proj1 (proj2 (proj2 host_messages_are_shifted))
           0%nat down0 stroke0 (at_ 5 5) (at_ 1 0)); reflexivity.
Defined.
